(** * Alien Invaders: a shallow embedding of the frame simulation core

    The game of [main.cpp] keeps a CPU-side pixel buffer, blits monochrome
    sprites into it, and steps a small simulation once per displayed frame.
    This file embeds the pure part of that program (the buffer and sprite
    operations, the bounding-box test, the set-up of the formation and the
    body of the game loop) and proves the properties its specification states.

    Conventions of the embedding:
    - [unsigned int], [uint32_t] and [uint8_t] values are integers of [Z];
      every arithmetic result is reduced by [u32] (modulo 2^32) or [u8], an
      [int] result by [s32] (two's complement).
    - arrays are lists, read with [l !!! i] and written with [<[i:=v]> l];
      an index taken from an [unsigned int] goes through [arr_get], which
      yields the default element outside the array (C++ leaves such a read
      undefined; no theorem below depends on it).
    - loops run over [seq 0 n]; the rocket loop, whose bound changes while it
      runs, is driven by the capacity of the rocket pool. *)

From stdpp Require Import base numbers list.

Local Open Scope Z_scope.

(** ** Machine arithmetic *)

Definition u32 (z : Z) : Z := z mod 2 ^ 32.
Definition u8 (z : Z) : Z := z mod 2 ^ 8.
Definition s32 (z : Z) : Z := (z + 2 ^ 31) mod 2 ^ 32 - 2 ^ 31.

Definition GAME_MAX_ROCKETS : Z := 128.

(** Read of an array cell whose index is an [unsigned int] value. *)
Definition arr_get {A} `{!Inhabited A} (l : list A) (z : Z) : A :=
  if (0 <=? z) && (z <? Z.of_nat (length l)) then l !!! Z.to_nat z else inhabitant.

(** ** Buffers and sprites *)

Record Buffer := mkBuffer {
  buf_width : Z;
  buf_height : Z;
  buf_data : list Z
}.

Record Sprite := mkSprite {
  sp_width : Z;
  sp_height : Z;
  sp_data : list Z
}.

#[global] Instance Sprite_inhabited : Inhabited Sprite := populate (mkSprite 0 0 []).

(** [rgb_to_uint32]: the three channels shifted into place, the low byte 225.
    The operands are promoted to [int], the result converted to [uint32_t]. *)
Definition rgb_to_uint32 (r g b : Z) : Z :=
  u32 (Z.lor (Z.lor (Z.lor (s32 (Z.shiftl r 24)) (Z.shiftl g 16)) (Z.shiftl b 8)) 225).

(** [clear_buffer]: every cell below [width * height] receives [color]. *)
Definition clear_buffer (buffer : Buffer) (color : Z) : Buffer :=
  mkBuffer (buf_width buffer) (buf_height buffer)
    (foldl (fun d i => <[i := color]> d) (buf_data buffer)
       (seq 0 (Z.to_nat (u32 (buf_width buffer * buf_height buffer))))).

(** [sprite_overlap_check]: the four comparisons on the two rectangles. *)
Definition sprite_overlap_check
    (sp_a : Sprite) (x_a y_a : Z) (sp_b : Sprite) (x_b y_b : Z) : bool :=
  (x_a <? u32 (x_b + sp_width sp_b)) && (u32 (x_a + sp_width sp_a) >? x_b) &&
  (y_a <? u32 (y_b + sp_height sp_b)) && (u32 (y_a + sp_height sp_a) >? y_b).

(** The mask entry [sprite.data[j * sprite.width + i]] read as a truth value. *)
Definition mask_bit (sprite : Sprite) (i j : Z) : bool :=
  negb (arr_get (sp_data sprite) (u32 (j * sp_width sprite + i)) =? 0).

(** The body of the two loops of [DrawSprite]. *)
Definition draw_pixel (sprite : Sprite) (x y color : Z) (i j : nat) (buffer : Buffer) : Buffer :=
  let yPos := u32 (sp_height sprite - 1 + y - Z.of_nat j) in
  let xPos := u32 (x + Z.of_nat i) in
  if mask_bit sprite (Z.of_nat i) (Z.of_nat j)
     && (yPos <? buf_height buffer) && (xPos <? buf_width buffer)
  then mkBuffer (buf_width buffer) (buf_height buffer)
         (<[Z.to_nat (u32 (yPos * buf_width buffer + xPos)) := color]> (buf_data buffer))
  else buffer.

Definition draw_column (sprite : Sprite) (x y color : Z) (i : nat) (buffer : Buffer) : Buffer :=
  foldl (fun b j => draw_pixel sprite x y color i j b) buffer
    (seq 0 (Z.to_nat (sp_height sprite))).

Definition DrawSprite (buffer : Buffer) (sprite : Sprite) (x y color : Z) : Buffer :=
  foldl (fun b i => draw_column sprite x y color i b) buffer
    (seq 0 (Z.to_nat (sp_width sprite))).

(** The cell of the buffer that shows the pixel [(px, py)]. *)
Definition pixel (buffer : Buffer) (px py : Z) : Z :=
  arr_get (buf_data buffer) (py * buf_width buffer + px).

(** ** Entities *)

Definition ALIEN_DEAD : Z := 0.
Definition ALIEN_TYPE_A : Z := 1.
Definition ALIEN_TYPE_B : Z := 2.

Record Alien := mkAlien {
  alien_x : Z;
  alien_y : Z;
  alien_type : Z
}.

Record Player := mkPlayer {
  player_x : Z;
  player_y : Z;
  lives : Z
}.

Record Rocket := mkRocket {
  rocket_x : Z;
  rocket_y : Z;
  dir : Z
}.

#[global] Instance Alien_inhabited : Inhabited Alien := populate (mkAlien 0 0 0).
#[global] Instance Rocket_inhabited : Inhabited Rocket := populate (mkRocket 0 0 0).

Record Game := mkGame {
  height : Z;
  width : Z;
  alien_hoard_size : Z;
  num_rockets : Z;
  frame_counter : Z;
  alien_array : list Alien;
  first_line_array : list Alien;
  player : Player;
  rockets : list Rocket
}.

Record SpriteAnimation := mkSpriteAnimation {
  loop : bool;
  num_frames : Z;
  frame_duration : Z;
  time : Z;
  frames : list Sprite
}.

#[global] Instance SpriteAnimation_inhabited : Inhabited SpriteAnimation :=
  populate (mkSpriteAnimation false 0 0 0 []).

(** ** The sprites of [main] *)

Definition alien_sprites : list Sprite :=
  [ mkSprite 11 8
      [0;0;1;0;0;0;0;0;1;0;0;
       0;0;0;1;0;0;0;1;0;0;0;
       0;0;1;1;1;1;1;1;1;0;0;
       0;1;1;0;1;1;1;0;1;1;0;
       1;1;1;1;1;1;1;1;1;1;1;
       1;0;1;1;1;1;1;1;1;0;1;
       1;0;1;0;0;0;0;0;1;0;1;
       0;0;0;1;1;0;1;1;0;0;0];
    mkSprite 11 8
      [0;0;1;0;0;0;0;0;1;0;0;
       1;0;0;1;0;0;0;1;0;0;1;
       1;0;1;1;1;1;1;1;1;0;1;
       1;1;1;0;1;1;1;0;1;1;1;
       1;1;1;1;1;1;1;1;1;1;1;
       0;0;1;1;1;1;1;1;1;0;0;
       0;0;1;0;0;0;0;0;1;0;0;
       0;1;0;0;0;0;0;0;0;1;0];
    mkSprite 8 8
      [0;0;0;1;1;0;0;0;
       0;0;1;1;1;1;0;0;
       0;1;1;1;1;1;1;0;
       1;1;0;1;1;0;1;1;
       1;1;1;1;1;1;1;1;
       0;1;0;1;1;0;1;0;
       1;0;0;0;0;0;0;1;
       0;1;0;0;0;0;1;0];
    mkSprite 8 8
      [0;0;0;1;1;0;0;0;
       0;0;1;1;1;1;0;0;
       0;1;1;1;1;1;1;0;
       1;1;0;1;1;0;1;1;
       1;1;1;1;1;1;1;1;
       0;0;1;0;0;1;0;0;
       0;1;0;1;1;0;1;0;
       1;0;1;0;0;1;0;1] ].

Definition alien_death_sprite : Sprite :=
  mkSprite 13 7
    [0;1;0;0;1;0;0;0;1;0;0;1;0;
     0;0;1;0;0;1;0;1;0;0;1;0;0;
     0;0;0;1;0;0;0;0;0;1;0;0;0;
     1;1;0;0;0;0;0;0;0;0;0;1;1;
     0;0;0;1;0;0;0;0;0;1;0;0;0;
     0;0;1;0;0;1;0;1;0;0;1;0;0;
     0;1;0;0;1;0;0;0;1;0;0;1;0].

Definition playerSprite : Sprite :=
  mkSprite 10 10
    [0;0;1;0;0;0;0;1;0;0;
     0;0;1;0;0;0;0;1;0;0;
     0;1;1;1;0;0;1;1;1;0;
     0;1;1;1;0;0;1;1;1;0;
     0;1;1;1;0;0;1;1;1;0;
     0;1;1;1;1;1;1;1;1;0;
     0;1;1;1;1;1;1;1;1;0;
     0;1;1;1;1;1;1;1;1;0;
     0;1;1;1;1;1;1;1;1;0;
     1;1;1;1;1;1;1;1;1;1].

Definition rocket_sprite : Sprite :=
  mkSprite 2 5 [1;1; 1;1; 1;1; 1;1; 1;1].

(** ** The state of the game loop

    Besides the [Game] record the loop of [main] reads and writes the locals
    [death_counter], [alien_animation], [score] and [aliens_killed]. *)

Record State := mkState {
  game : Game;
  death_counter : list Z;
  alien_animation : list SpriteAnimation;
  score : Z;
  aliens_killed : Z
}.

(** What the input collaborator has latched when a tick reads it, and the
    value [std::rand()] returns in that tick. *)
Record Input := mkInput {
  move_dir : Z;
  rocket_fired : bool;
  rand_value : Z
}.

(** A tick either hands the state to the next tick or ends the session. *)
Inductive Outcome :=
| Running (s : State)
| Lost
| Won.

(** *** Field updates *)

Definition set_num_rockets (n : Z) (g : Game) : Game :=
  mkGame (height g) (width g) (alien_hoard_size g) n (frame_counter g)
    (alien_array g) (first_line_array g) (player g) (rockets g).
Definition set_frame_counter (n : Z) (g : Game) : Game :=
  mkGame (height g) (width g) (alien_hoard_size g) (num_rockets g) n
    (alien_array g) (first_line_array g) (player g) (rockets g).
Definition set_alien_array (l : list Alien) (g : Game) : Game :=
  mkGame (height g) (width g) (alien_hoard_size g) (num_rockets g) (frame_counter g)
    l (first_line_array g) (player g) (rockets g).
Definition set_first_line_array (l : list Alien) (g : Game) : Game :=
  mkGame (height g) (width g) (alien_hoard_size g) (num_rockets g) (frame_counter g)
    (alien_array g) l (player g) (rockets g).
Definition set_player (p : Player) (g : Game) : Game :=
  mkGame (height g) (width g) (alien_hoard_size g) (num_rockets g) (frame_counter g)
    (alien_array g) (first_line_array g) p (rockets g).
Definition set_rockets (l : list Rocket) (g : Game) : Game :=
  mkGame (height g) (width g) (alien_hoard_size g) (num_rockets g) (frame_counter g)
    (alien_array g) (first_line_array g) (player g) l.

Definition set_game (g : Game) (s : State) : State :=
  mkState g (death_counter s) (alien_animation s) (score s) (aliens_killed s).
Definition set_death_counter (l : list Z) (s : State) : State :=
  mkState (game s) l (alien_animation s) (score s) (aliens_killed s).
Definition set_alien_animation (l : list SpriteAnimation) (s : State) : State :=
  mkState (game s) (death_counter s) l (score s) (aliens_killed s).
Definition set_score (n : Z) (s : State) : State :=
  mkState (game s) (death_counter s) (alien_animation s) n (aliens_killed s).
Definition set_aliens_killed (n : Z) (s : State) : State :=
  mkState (game s) (death_counter s) (alien_animation s) (score s) n.

Definition set_x (x : Z) (a : Alien) : Alien := mkAlien x (alien_y a) (alien_type a).
Definition set_type (t : Z) (a : Alien) : Alien := mkAlien (alien_x a) (alien_y a) t.

(** ** Set-up of the game (the part of [main] before the loop) *)

Definition buffer_width : Z := 300.
Definition buffer_height : Z := 400.

(** One pass of the body of the two loops that place the horde. *)
Definition init_alien (j i : nat) (arr : list Alien) : list Alien :=
  let jz := Z.of_nat j in
  let iz := Z.of_nat i in
  let ty := if u32 (jz * 10 + 1) <? 20 then 1 else 2 in
  <[(j * 10 + i)%nat :=
      mkAlien (u32 (30 + iz * (11 + 15))) (u32 (250 + jz * (8 + 15))) ty]> arr.

Definition init_alien_array (hoard : nat) : list Alien :=
  foldl (fun arr j => foldl (fun arr i => init_alien j i arr) arr (seq 0 10))
    (replicate hoard inhabitant) (seq 0 5).

Definition init_death_counter (hoard : nat) : list Z :=
  foldl (fun d i => <[i := 10]> d) (replicate hoard 0) (seq 0 hoard).

Definition init_alien_animation : list SpriteAnimation :=
  map (fun i : nat =>
         mkSpriteAnimation true 2 10 0
           [alien_sprites !!! (2 * i)%nat; alien_sprites !!! (2 * i + 1)%nat])
      (seq 0 2).

Definition init_game : Game :=
  mkGame buffer_height buffer_width 50 0 0
    (init_alien_array 50) (replicate 10 inhabitant)
    (mkPlayer 150 25 3) (replicate (Z.to_nat GAME_MAX_ROCKETS) inhabitant).

Definition init_state : State :=
  mkState init_game (init_death_counter 50) init_alien_animation 0 0.

(** ** The body of the game loop *)

(** *** Drawing the horde *)

Definition animation_sprite (animation : SpriteAnimation) : Sprite :=
  let current_frame := time animation / frame_duration animation in
  arr_get (frames animation) current_frame.

Definition animation_of (s : State) (type : Z) : SpriteAnimation :=
  arr_get (alien_animation s) (type - 1).

(** The sprite the drawing loop selects for slot [i]; [None] when the slot is
    skipped. *)
Definition alien_draw_sprite (s : State) (i : nat) : option Sprite :=
  let a := alien_array (game s) !!! i in
  if death_counter s !!! i =? 0 then None
  else if alien_type a =? ALIEN_DEAD then Some alien_death_sprite
  else Some (animation_sprite (animation_of s (alien_type a))).

Definition draw_alien (s : State) (i : nat) (buffer : Buffer) : Buffer :=
  let a := alien_array (game s) !!! i in
  match alien_draw_sprite s i with
  | None => buffer
  | Some sprite => DrawSprite buffer sprite (alien_x a) (alien_y a) (rgb_to_uint32 128 0 0)
  end.

Definition draw_aliens (s : State) (buffer : Buffer) : Buffer :=
  foldl (fun b i => draw_alien s i b) buffer
    (seq 0 (Z.to_nat (alien_hoard_size (game s)))).

(** *** Animation clocks *)

Definition advance_animation (a : SpriteAnimation) : SpriteAnimation :=
  let t := u32 (time a + 1) in
  mkSpriteAnimation (loop a) (num_frames a) (frame_duration a)
    (if t =? u32 (num_frames a * frame_duration a) then 0 else t) (frames a).

Definition update_animation_timing (s : State) : State :=
  set_alien_animation
    (foldl (fun l i => <[i := advance_animation (l !!! i)]> l) (alien_animation s) (seq 0 2)) s.

(** *** Death countdown *)

Definition handle_alien_death (i : nat) (s : State) : State :=
  if (alien_type (alien_array (game s) !!! i) =? ALIEN_DEAD)
     && negb (death_counter s !!! i =? 0)
  then set_death_counter (<[i := u8 (death_counter s !!! i - 1)]> (death_counter s)) s
  else s.

Definition handle_alien_deaths (s : State) : State :=
  foldl (fun s i => handle_alien_death i s) s
    (seq 0 (Z.to_nat (alien_hoard_size (game s)))).

(** *** Rockets *)

(** [rockets[i] = rockets[num_rockets - 1]; num_rockets--] *)
Definition remove_rocket (i : nat) (g : Game) : Game :=
  let last := arr_get (rockets g) (u32 (num_rockets g - 1)) in
  set_num_rockets (u32 (num_rockets g - 1)) (set_rockets (<[i := last]> (rockets g)) g).

(** The block run when rocket [i] overlaps alien [j]. *)
Definition hit_alien (i j : nat) (alien_sprite : Sprite) (s : State) : State :=
  let a := alien_array (game s) !!! j in
  let score' := u32 (score s + 10 * (4 - alien_type a)) in
  let killed' := s32 (aliens_killed s + 1) in
  let a1 := set_type ALIEN_DEAD a in
  let a2 := set_x (u32 (alien_x a1
                        - u32 (sp_width alien_death_sprite - sp_width alien_sprite) / 2)) a1 in
  let g1 := set_alien_array (<[j := a2]> (alien_array (game s))) (game s) in
  set_game (remove_rocket i g1) (set_aliens_killed killed' (set_score score' s)).

(** The body of the scan over the horde for the rocket in slot [i]. Its
    [continue] statements go on with the next alien. *)
Definition check_alien (i j : nat) (s : State) : State :=
  let a := alien_array (game s) !!! j in
  if alien_type a =? ALIEN_DEAD then s
  else
    let alien_sprite := animation_sprite (animation_of s (alien_type a)) in
    let r := rockets (game s) !!! i in
    if sprite_overlap_check rocket_sprite (rocket_x r) (rocket_y r)
         alien_sprite (alien_x a) (alien_y a)
    then hit_alien i j alien_sprite s
    else s.

Definition scan_aliens (i : nat) (s : State) : State :=
  foldl (fun s j => check_alien i j s) s
    (seq 0 (Z.to_nat (alien_hoard_size (game s)))).

(** The test of the rocket in slot [i] against the player. *)
Definition check_player (i : nat) (s : State) : Outcome :=
  let g := game s in
  let r := rockets g !!! i in
  let p := player g in
  if sprite_overlap_check rocket_sprite (rocket_x r) (rocket_y r)
       playerSprite (player_x p) (player_y p)
  then
    let lives' := u32 (lives p - 1) in
    if lives' =? 0 then Lost
    else Running (set_game (set_player (mkPlayer 150 25 lives') g) s)
  else Running s.

(** The body of the loop over the rockets. *)
Definition rocket_step (i : nat) (s : State) : Outcome :=
  let g := game s in
  let r := rockets g !!! i in
  let r' := mkRocket (rocket_x r) (u32 (rocket_y r + dir r)) (dir r) in
  let g1 := set_rockets (<[i := r']> (rockets g)) g in
  if (rocket_y r' >=? height g1) || (rocket_y r' <? sp_height rocket_sprite)
  then Running (set_game (remove_rocket i g1) s)
  else check_player i (scan_aliens i (set_game g1 s)).

(** The loop over the rockets. Its bound [num_rockets] changes while it runs;
    [fuel] counts the slots of the pool still ahead of [i]. *)
Fixpoint rocket_loop (fuel : nat) (i : nat) (s : State) : Outcome :=
  match fuel with
  | O => Running s
  | S fuel' =>
      if Z.of_nat i <? num_rockets (game s) then
        match rocket_step i s with
        | Running s' => rocket_loop fuel' (S i) s'
        | o => o
        end
      else Running s
  end.

Definition resolve_rockets (s : State) : Outcome :=
  rocket_loop (Z.to_nat GAME_MAX_ROCKETS) 0 s.

(** *** Player movement *)

Definition move_player (move_dir : Z) (g : Game) : Game :=
  let p := player g in
  let player_move_dir := s32 (2 * move_dir) in
  if negb (player_move_dir =? 0) then
    if u32 (player_x p + sp_width playerSprite + player_move_dir) >=? width g
    then set_player (mkPlayer (u32 (width g - sp_width playerSprite)) (player_y p) (lives p)) g
    else if s32 (s32 (player_x p) + player_move_dir) <=? 0
    then set_player (mkPlayer 0 (player_y p) (lives p)) g
    else set_player (mkPlayer (u32 (player_x p + player_move_dir)) (player_y p) (lives p)) g
  else g.

(** *** Front rank *)

(** The scan [for (j = 1; j < 5; j++)] over the rows behind the first one; it
    stops at the first alien that is not dead. *)
Fixpoint next_level (arr : list Alien) (i : nat) (js : list nat) : option Alien :=
  match js with
  | [] => None
  | j :: js' =>
      if negb (alien_type (arr !!! (i + 10 * j)%nat) =? ALIEN_DEAD)
      then Some (arr !!! (i + 10 * j)%nat)
      else next_level arr i js'
  end.

Definition update_first_line_at (i : nat) (g : Game) : Game :=
  let arr := alien_array g in
  if negb (alien_type (arr !!! i) =? ALIEN_DEAD)
  then set_first_line_array (<[i := arr !!! i]> (first_line_array g)) g
  else
    match next_level arr i (seq 1 4) with
    | Some a => set_first_line_array (<[i := a]> (first_line_array g)) g
    | None => set_first_line_array (<[i := arr !!! (i + 40)%nat]> (first_line_array g)) g
    end.

Definition update_first_line (g : Game) : Game :=
  foldl (fun g i => update_first_line_at i g) g (seq 0 10).

(** *** Firing *)

Definition alien_rocket (a : Alien) : Rocket :=
  mkRocket (u32 (alien_x a + 4)) (u32 (alien_y a - 10)) (-3).

Definition alien_fire (rand_value : Z) (g : Game) : Game :=
  let g1 := set_frame_counter (u32 (frame_counter g + 1)) g in
  if (frame_counter g1 =? 30) && (num_rockets g1 <? GAME_MAX_ROCKETS) then
    let rand := Z.rem rand_value 10 in
    let a := arr_get (first_line_array g1) rand in
    let g2 :=
      if negb (alien_type a =? ALIEN_DEAD) then
        set_num_rockets (u32 (num_rockets g1 + 1))
          (set_rockets (<[Z.to_nat (num_rockets g1) := alien_rocket a]> (rockets g1)) g1)
      else g1 in
    set_frame_counter 0 g2
  else g1.

Definition player_rocket (p : Player) : Rocket :=
  mkRocket (u32 (player_x p + sp_width playerSprite / 2))
           (u32 (player_y p + sp_height playerSprite)) 3.

Definition player_fire (rocket_fired : bool) (g : Game) : Game :=
  if rocket_fired && (num_rockets g <? GAME_MAX_ROCKETS) then
    set_num_rockets (u32 (num_rockets g + 1))
      (set_rockets (<[Z.to_nat (num_rockets g) := player_rocket (player g)]> (rockets g)) g)
  else g.

(** *** One tick and runs of ticks

    The state a tick starts from is the one its drawing phase shows; the
    simulation phase follows in the order of the source. *)
Definition simulate (inp : Input) (g : Game) : Game :=
  player_fire (rocket_fired inp)
    (alien_fire (rand_value inp)
       (update_first_line (move_player (move_dir inp) g))).

Definition tick (inp : Input) (s : State) : Outcome :=
  match resolve_rockets (handle_alien_deaths (update_animation_timing s)) with
  | Running s' =>
      if aliens_killed s' =? 50 then Won
      else Running (set_game (simulate inp (game s')) s')
  | o => o
  end.

Fixpoint run (inputs : list Input) (s : State) : Outcome :=
  match inputs with
  | [] => Running s
  | inp :: rest =>
      match tick inp s with
      | Running s' => run rest s'
      | o => o
      end
  end.

(** ** Properties stated about the program *)

(** A value of an [unsigned int]. *)
Definition is_u32 (z : Z) : Prop := 0 <= z < 2 ^ 32.

(** *** Rectangles *)

(** The rectangle of a sprite anchored at [(x, y)] contains the pixel. *)
Definition in_box (sp : Sprite) (x y px py : Z) : Prop :=
  x <= px < x + sp_width sp /\ y <= py < y + sp_height sp.

Definition boxes_share_pixel (sp_a : Sprite) (x_a y_a : Z) (sp_b : Sprite) (x_b y_b : Z) : Prop :=
  exists px py, in_box sp_a x_a y_a px py /\ in_box sp_b x_b y_b px py.

(** The two rectangles meet along an edge: one ends where the other starts. *)
Definition boxes_touch (sp_a : Sprite) (x_a y_a : Z) (sp_b : Sprite) (x_b y_b : Z) : Prop :=
  x_a + sp_width sp_a = x_b \/ x_b + sp_width sp_b = x_a \/
  y_a + sp_height sp_a = y_b \/ y_b + sp_height sp_b = y_a.

(** The rectangle lies in the range of the coordinates: its far edges are
    [unsigned int] values too. *)
Definition box_fits (sp : Sprite) (x y : Z) : Prop :=
  0 <= x /\ 0 <= y /\ 0 <= sp_width sp /\ 0 <= sp_height sp /\
  x + sp_width sp < 2 ^ 32 /\ y + sp_height sp < 2 ^ 32.

(** *** Blitting *)

Definition buffer_wf (b : Buffer) : Prop :=
  0 <= buf_width b /\ 0 <= buf_height b /\
  buf_width b * buf_height b < 2 ^ 32 /\
  length (buf_data b) = Z.to_nat (buf_width b * buf_height b).

(** Some set mask bit [(i, j)] of the sprite anchored at [(x, y)] lands on
    the pixel [(px, py)], the coordinates computed as [DrawSprite] does. *)
Definition covers (sprite : Sprite) (x y px py : Z) : Prop :=
  exists i j, 0 <= i < sp_width sprite /\ 0 <= j < sp_height sprite /\
    mask_bit sprite i j = true /\
    u32 (x + i) = px /\ u32 (sp_height sprite - 1 + y - j) = py.

(** The same with the coordinates [x + i] and [y + height - 1 - j] taken as
    integers. *)
Definition covers_exact (sprite : Sprite) (x y px py : Z) : Prop :=
  exists i j, 0 <= i < sp_width sprite /\ 0 <= j < sp_height sprite /\
    mask_bit sprite i j = true /\
    x + i = px /\ y + sp_height sprite - 1 - j = py.

(** The decision of [covers] along the loops of [DrawSprite]. *)
Definition lands (sprite : Sprite) (x y px py : Z) (i j : nat) : bool :=
  mask_bit sprite (Z.of_nat i) (Z.of_nat j)
  && (u32 (x + Z.of_nat i) =? px)
  && (u32 (sp_height sprite - 1 + y - Z.of_nat j) =? py).

(** *** The formation *)

Definition formation_x (k : nat) : Z := 30 + 26 * (Z.of_nat k mod 10).
Definition formation_y (k : nat) : Z := 250 + 23 * (Z.of_nat k / 10).
Definition formation_type (k : nat) : Z := if Z.of_nat k / 10 <? 2 then 1 else 2.

Definition formation_alien (k : nat) : Alien :=
  mkAlien (formation_x k) (formation_y k) (formation_type k).

(** The value the front-rank update stores for column [i]. *)
Definition representative (arr : list Alien) (i : nat) : Alien :=
  if negb (alien_type (arr !!! i) =? ALIEN_DEAD) then arr !!! i
  else match next_level arr i (seq 1 4) with
       | Some a => a
       | None => arr !!! (i + 40)%nat
       end.

(** *** Hits of a scan

    [rocket_hits i j s]: the scan for slot [i] finds alien [j] alive and
    overlapped by the rocket in the slot. *)
Definition rocket_hits (i j : nat) (s : State) : bool :=
  let a := alien_array (game s) !!! j in
  let r := rockets (game s) !!! i in
  negb (alien_type a =? ALIEN_DEAD)
  && sprite_overlap_check rocket_sprite (rocket_x r) (rocket_y r)
       (animation_sprite (animation_of s (alien_type a))) (alien_x a) (alien_y a).

(** The hits of the scan for slot [i] over the aliens [js], in order: the
    alien hit and the rocket record that occupied the slot at that moment. *)
Fixpoint scan_log (i : nat) (js : list nat) (s : State) : list (nat * Rocket) :=
  match js with
  | [] => []
  | j :: js' =>
      (if rocket_hits i j s then [(j, rockets (game s) !!! i)] else [])
      ++ scan_log i js' (check_alien i j s)
  end.

(** The rocket record [r], tested against alien [k] of the state, overlaps it
    while it is alive. *)
Definition overlaps_alien (s : State) (r : Rocket) (k : nat) : bool :=
  let a := alien_array (game s) !!! k in
  negb (alien_type a =? ALIEN_DEAD)
  && sprite_overlap_check rocket_sprite (rocket_x r) (rocket_y r)
       (animation_sprite (animation_of s (alien_type a))) (alien_x a) (alien_y a).

(** *** The invariant of the game loop *)

Definition dead_count (l : list Alien) : Z :=
  foldr (fun a n => if alien_type a =? ALIEN_DEAD then n + 1 else n) 0 l.

(** Slot [k] holds either the alien the set-up placed there, its countdown
    untouched, or its corpse, shifted left by the re-centring. *)
Definition alien_ok (k : nat) (a : Alien) (dc : Z) : Prop :=
  alien_y a = formation_y k /\
  ((alien_type a = formation_type k /\ alien_x a = formation_x k /\ dc = 10) \/
   (alien_type a = ALIEN_DEAD /\ formation_x k - 2 <= alien_x a <= formation_x k /\
    0 <= dc <= 10)).

Definition rocket_ok (r : Rocket) : Prop :=
  is_u32 (rocket_x r) /\ is_u32 (rocket_y r).

Definition animation_ok (l : list SpriteAnimation) : Prop :=
  exists t0 t1, 0 <= t0 < 20 /\ 0 <= t1 < 20 /\
    l = [ mkSpriteAnimation true 2 10 t0 [alien_sprites !!! 0%nat; alien_sprites !!! 1%nat];
          mkSpriteAnimation true 2 10 t1 [alien_sprites !!! 2%nat; alien_sprites !!! 3%nat] ].

Record Inv (s : State) : Prop := mkInv {
  inv_height : height (game s) = 400;
  inv_width : width (game s) = 300;
  inv_hoard : alien_hoard_size (game s) = 50;
  inv_aliens_len : length (alien_array (game s)) = 50%nat;
  inv_counter_len : length (death_counter s) = 50%nat;
  inv_first_len : length (first_line_array (game s)) = 10%nat;
  inv_rockets_len : length (rockets (game s)) = 128%nat;
  inv_num : 0 <= num_rockets (game s) <= 128;
  inv_frame : is_u32 (frame_counter (game s));
  inv_aliens : forall k, (k < 50)%nat ->
      alien_ok k (alien_array (game s) !!! k) (death_counter s !!! k);
  inv_rockets : forall i, rocket_ok (rockets (game s) !!! i);
  inv_animation : animation_ok (alien_animation s);
  inv_player : 0 <= player_x (player (game s)) <= 290 /\
               player_y (player (game s)) = 25 /\
               1 <= lives (player (game s)) <= 3;
  inv_killed : aliens_killed s = dead_count (alien_array (game s));
  inv_score : 0 <= score s <= 30 * aliens_killed s
}.

(** The invariant of the scan for slot [i]: the slot is live, or the record
    left in it overlaps no alien that is still alive. *)
Definition ScanInv (i : nat) (s : State) : Prop :=
  Inv s /\
  (Z.of_nat i < num_rockets (game s) \/
   forall k, (k < 50)%nat -> rocket_hits i k s = false).

(** ** Concrete inputs used in examples *)

(** A sprite of one set pixel, and one of two set pixels side by side. *)
Definition dot_sprite : Sprite := mkSprite 1 1 [1].
Definition dash_sprite : Sprite := mkSprite 2 1 [1; 1].

(** The largest [unsigned int]. *)
Definition UINT_MAX : Z := 4294967295.

(** The set-up with the aliens of column 3 dead in rows 0 to 2. *)
Definition kill_slot (k : nat) (arr : list Alien) : list Alien :=
  <[k := set_type ALIEN_DEAD (arr !!! k)]> arr.

Definition thinned_game : Game :=
  set_alien_array (kill_slot 23 (kill_slot 13 (kill_slot 3 (alien_array init_game)))) init_game.

(** The set-up with the front rank computed and the frame counter one short
    of the firing tick. *)
Definition armed_game : Game :=
  set_frame_counter 29 (update_first_line init_game).

(** A buffer of two pixels in one row, and one of three columns and two rows. *)
Definition row_buffer : Buffer := mkBuffer 2 1 [0; 0].
Definition small_buffer : Buffer := mkBuffer 3 2 [0; 0; 0; 0; 0; 0].

(** The width of the sprites of a live alien of type [t]. *)
Definition live_width (t : Z) : Z := if t =? 1 then 11 else 8.

(** The pool full of rockets in mid-field, the frame counter one short of
    the firing tick. *)
Definition full_pool_game : Game :=
  set_frame_counter 29
    (set_num_rockets GAME_MAX_ROCKETS
       (set_rockets (replicate 128 (mkRocket 155 100 3)) init_game)).


Definition idle_input : Input := mkInput 0 false 0.

(** What a hit leaves alone in the game record. *)
Definition same_frame (g g' : Game) : Prop :=
  height g' = height g /\ width g' = width g /\
  alien_hoard_size g' = alien_hoard_size g /\
  frame_counter g' = frame_counter g /\
  first_line_array g' = first_line_array g /\
  player g' = player g.

(** The step of the death loop on one counter. *)
Definition countdown (type dc : Z) : Z :=
  if (type =? ALIEN_DEAD) && negb (dc =? 0) then u8 (dc - 1) else dc.

(** Between two states of the horde every record is the same or went from
    alive to dead. *)
Definition only_dies (l l' : list Alien) : Prop :=
  forall k,
    l' !!! k = l !!! k \/
    (alien_type (l !!! k) <> ALIEN_DEAD /\ alien_type (l' !!! k) = ALIEN_DEAD).

(** The set-up with one rocket in the pool, under the alien of slot 0. *)
Definition aimed_game : Game :=
  set_num_rockets 1 (set_rockets (<[0%nat := mkRocket 35 248 3]> (rockets init_game)) init_game).

Definition aimed_state : State := set_game aimed_game init_state.

(** The state an outcome hands on (the set-up when the session has ended). *)
Definition state_of (o : Outcome) : State :=
  match o with
  | Running s => s
  | _ => init_state
  end.

(** The states of a short session from [aimed_state]: the tick in which the
    rocket hits the alien of slot 0, and four more ticks. *)
Definition after_hit : State := state_of (tick idle_input aimed_state).
Definition four_later : State := state_of (run (replicate 4 idle_input) after_hit).

(** Two aliens placed on the same spot, which the set-up never does, and one
    rocket under them. *)
Definition crowded_state : State :=
  set_game
    (set_alien_array (<[1%nat := mkAlien 30 250 1]> (alien_array init_game)) aimed_game)
    init_state.

(** ** Further parts of the program *)

(** *** Keyboard input

    [key_callback] writes the three process-wide variables the game loop
    reads; [Latch] holds them. The keys the switch tells apart and the three
    actions GLFW reports are the constructors of [Key] and [Action]. *)
Module Keyboard.

Inductive Key := KEY_ESCAPE | KEY_RIGHT | KEY_LEFT | KEY_SPACE | KEY_OTHER.
Inductive Action := PRESS | RELEASE | REPEAT.

Record Latch := mkLatch {
  game_running : bool;
  move_dir : Z;
  rocket_fired : bool
}.

Definition key_callback (key : Key) (action : Action) (w : Latch) : Latch :=
  match key with
  | KEY_ESCAPE =>
      match action with
      | PRESS => mkLatch false (move_dir w) (rocket_fired w)
      | _ => w
      end
  | KEY_RIGHT =>
      match action with
      | PRESS => mkLatch (game_running w) (s32 (move_dir w + 1)) (rocket_fired w)
      | RELEASE => mkLatch (game_running w) (s32 (move_dir w - 1)) (rocket_fired w)
      | REPEAT => w
      end
  | KEY_LEFT =>
      match action with
      | PRESS => mkLatch (game_running w) (s32 (move_dir w - 1)) (rocket_fired w)
      | RELEASE => mkLatch (game_running w) (s32 (move_dir w + 1)) (rocket_fired w)
      | REPEAT => w
      end
  | KEY_SPACE =>
      match action with
      | PRESS => mkLatch (game_running w) (move_dir w) true
      | _ => w
      end
  | KEY_OTHER => w
  end.

(** The events one call of [glfwPollEvents] delivers, in order. *)
Definition poll (events : list (Key * Action)) (w : Latch) : Latch :=
  foldl (fun w e => key_callback (fst e) (snd e) w) w events.

End Keyboard.

(** *** Text

    A [char] is an integer of [Z] reduced by [s8]; a string is the list of its
    characters, read up to the first 0. *)
Definition s8 (z : Z) : Z := (z + 2 ^ 7) mod 2 ^ 8 - 2 ^ 7.

(** The sprite whose [data] points [character * stride] entries into the
    sheet. *)
Definition glyph (text_spritesheet : Sprite) (character : Z) : Sprite :=
  let stride := u32 (sp_height text_spritesheet * sp_width text_spritesheet) in
  mkSprite (sp_width text_spritesheet) (sp_height text_spritesheet)
    (drop (Z.to_nat (u32 (character * stride))) (sp_data text_spritesheet)).

(** The loop of [DrawBufferText] from the pen position [xp]. *)
Fixpoint draw_text (buffer : Buffer) (text_spritesheet : Sprite) (text : list Z)
    (xp y color : Z) : Buffer :=
  match text with
  | [] => buffer
  | c :: rest =>
      if c =? 0 then buffer
      else
        let character := s8 (c - 32) in
        if (character <? 0) || (character >=? 65)
        then draw_text buffer text_spritesheet rest xp y color
        else
          draw_text (DrawSprite buffer (glyph text_spritesheet character) xp y color)
            text_spritesheet rest (u32 (xp + sp_width text_spritesheet + 1)) y color
  end.

Definition DrawBufferText (buffer : Buffer) (text_spritesheet : Sprite) (text : list Z)
    (x y color : Z) : Buffer :=
  draw_text buffer text_spritesheet text x y color.

(** *** Drawing the player and the rockets *)



(** *** Properties *)

(** The states a session can be in: those some sequence of inputs leads to
    from the set-up. *)
Definition reachable (s : State) : Prop :=
  exists inputs, run inputs init_state = Running s.

Definition all_dead (l : list Alien) : Prop :=
  forall k, (k < length l)%nat -> alien_type (l !!! k) = ALIEN_DEAD.

(** The clock of an animation after [n] passes of the timing update. *)
Fixpoint advance_n (n : nat) (a : SpriteAnimation) : SpriteAnimation :=
  match n with
  | O => a
  | S n' => advance_n n' (advance_animation a)
  end.

(** A character the sheet has a glyph for: the codes 32 to 96. *)
Definition printable (c : Z) : bool := (32 <=? c) && (c <? 97).

(** A short session: one tick without input from the set-up. *)
Definition first_tick : State := state_of (tick idle_input init_state).

(** The set-up with two rockets in the pool, the first about to leave the
    field at the top. *)
Definition leaving_game : Game :=
  set_num_rockets 2
    (set_rockets
       (<[0%nat := mkRocket 155 398 3]> (<[1%nat := mkRocket 155 100 3]> (rockets init_game)))
       init_game).

Definition leaving_state : State := set_game leaving_game init_state.

(** The set-up with one rocket in the pool. *)
Definition one_rocket_state (r : Rocket) : State :=
  set_game
    (set_num_rockets 1 (set_rockets (<[0%nat := r]> (rockets init_game)) init_game))
    init_state.

(** One rocket over the player, coming down; and one in mid-field between two
    columns, going up. *)
Definition threatened_state : State := one_rocket_state (mkRocket 152 36 (-3)).
Definition cruising_state : State := one_rocket_state (mkRocket 155 100 3).

(** The set-up of column 3 thinned out, one tick short of the firing tick. *)
Definition primed_game : Game := set_frame_counter 29 thinned_game.

(** The set-up with every alien of the horde dead. *)
Definition cleared_state : State :=
  set_aliens_killed 50
    (set_game (set_alien_array (set_type ALIEN_DEAD <$> alien_array init_game) init_game)
       init_state).

(** * Proofs *)

(** ** Machine arithmetic *)

Lemma u32_small z : 0 <= z < 2 ^ 32 -> u32 z = z.
Proof. intros H. unfold u32. apply Z.mod_small. lia. Qed.

Lemma u32_range z : is_u32 (u32 z).
Proof. unfold is_u32, u32. apply Z.mod_pos_bound. lia. Qed.

Lemma u32_idem z : u32 (u32 z) = u32 z.
Proof. apply u32_small, u32_range. Qed.

Lemma u8_small z : 0 <= z < 2 ^ 8 -> u8 z = z.
Proof. intros H. unfold u8. apply Z.mod_small. lia. Qed.

Lemma s32_small z : - 2 ^ 31 <= z < 2 ^ 31 -> s32 z = z.
Proof. intros H. unfold s32. rewrite Z.mod_small; lia. Qed.

Lemma s32_range z : - 2 ^ 31 <= s32 z < 2 ^ 31.
Proof.
  unfold s32. pose proof (Z.mod_pos_bound (z + 2 ^ 31) (2 ^ 32)). lia.
Qed.

Lemma arr_get_lookup {A} `{!Inhabited A} (l : list A) (i : nat) :
  (i < length l)%nat -> arr_get l (Z.of_nat i) = l !!! i.
Proof.
  intros H. unfold arr_get.
  replace (0 <=? Z.of_nat i) with true by (symmetry; apply Z.leb_le; lia).
  replace (Z.of_nat i <? Z.of_nat (length l)) with true by (symmetry; apply Z.ltb_lt; lia).
  simpl. now rewrite Nat2Z.id.
Qed.

Lemma arr_get_Z {A} `{!Inhabited A} (l : list A) (z : Z) :
  0 <= z < Z.of_nat (length l) -> arr_get l z = l !!! Z.to_nat z.
Proof.
  intros H. rewrite <- (Z2Nat.id z) at 1 by lia. apply arr_get_lookup. lia.
Qed.

(** ** The bounding-box test *)

Section Overlap.
Variables (sp_a sp_b : Sprite) (x_a y_a x_b y_b : Z).

Lemma overlap_symmetric :
    sprite_overlap_check sp_a x_a y_a sp_b x_b y_b
    = sprite_overlap_check sp_b x_b y_b sp_a x_a y_a.
  Proof.
    unfold sprite_overlap_check.
    rewrite !Z.gtb_ltb.
    destruct (x_a <? u32 (x_b + sp_width sp_b)), (x_b <? u32 (x_a + sp_width sp_a)),
      (y_a <? u32 (y_b + sp_height sp_b)), (y_b <? u32 (y_a + sp_height sp_a));
      reflexivity.
  Qed.

Lemma overlap_true_iff :
    sprite_overlap_check sp_a x_a y_a sp_b x_b y_b = true <->
    x_a < u32 (x_b + sp_width sp_b) /\ x_b < u32 (x_a + sp_width sp_a) /\
    y_a < u32 (y_b + sp_height sp_b) /\ y_b < u32 (y_a + sp_height sp_a).
  Proof.
    unfold sprite_overlap_check.
    rewrite !andb_true_iff, !Z.gtb_ltb, !Z.ltb_lt. tauto.
  Qed.

Lemma overlap_touch_false :
    is_u32 x_a -> is_u32 y_a -> is_u32 x_b -> is_u32 y_b ->
    boxes_touch sp_a x_a y_a sp_b x_b y_b ->
    sprite_overlap_check sp_a x_a y_a sp_b x_b y_b = false.
  Proof.
    intros Hxa Hya Hxb Hyb Ht.
    apply not_true_is_false. rewrite overlap_true_iff. intros (H1 & H2 & H3 & H4).
    destruct Ht as [E | [E | [E | E]]].
    - rewrite E, (u32_small x_b) in H2 by exact Hxb. lia.
    - rewrite E, (u32_small x_a) in H1 by exact Hxa. lia.
    - rewrite E, (u32_small y_b) in H4 by exact Hyb. lia.
    - rewrite E, (u32_small y_a) in H3 by exact Hya. lia.
  Qed.

Lemma overlap_shared_pixel :
    box_fits sp_a x_a y_a -> box_fits sp_b x_b y_b ->
    boxes_share_pixel sp_a x_a y_a sp_b x_b y_b ->
    sprite_overlap_check sp_a x_a y_a sp_b x_b y_b = true.
  Proof.
    intros (? & ? & ? & ? & ? & ?) (? & ? & ? & ? & ? & ?).
    rewrite overlap_true_iff, !u32_small by lia.
    unfold boxes_share_pixel, in_box.
    intros (px & py & Ha & Hb). lia.
  Qed.

  (** For rectangles that are not empty the answer is exact. *)
Lemma overlap_fits_iff :
    box_fits sp_a x_a y_a -> box_fits sp_b x_b y_b ->
    0 < sp_width sp_a -> 0 < sp_height sp_a ->
    0 < sp_width sp_b -> 0 < sp_height sp_b ->
    (sprite_overlap_check sp_a x_a y_a sp_b x_b y_b = true <->
     boxes_share_pixel sp_a x_a y_a sp_b x_b y_b).
  Proof.
    intros Fa Fb Wa Ha Wb Hb. split; [| now apply overlap_shared_pixel].
    destruct Fa as (? & ? & ? & ? & ? & ?), Fb as (? & ? & ? & ? & ? & ?).
    rewrite overlap_true_iff, !u32_small by lia.
    unfold boxes_share_pixel, in_box. intros Ho.
    exists (Z.max x_a x_b), (Z.max y_a y_b). lia.
  Qed.
End Overlap.

(** C5 (amended). [sprite_overlap_check] is symmetric for all sizes and
    positions; two rectangles one of which ends where the other starts are
    reported as not overlapping; and for rectangles whose far edges
    [x + width] and [y + height] stay below 2^32 the test answers true
    whenever the two rectangles share a pixel. *)
Theorem sprite_overlap_check_spec (sp_a sp_b : Sprite) (x_a y_a x_b y_b : Z) :
  sprite_overlap_check sp_a x_a y_a sp_b x_b y_b
  = sprite_overlap_check sp_b x_b y_b sp_a x_a y_a /\
  (is_u32 x_a -> is_u32 y_a -> is_u32 x_b -> is_u32 y_b ->
   boxes_touch sp_a x_a y_a sp_b x_b y_b ->
   sprite_overlap_check sp_a x_a y_a sp_b x_b y_b = false) /\
  (box_fits sp_a x_a y_a -> box_fits sp_b x_b y_b ->
   boxes_share_pixel sp_a x_a y_a sp_b x_b y_b ->
   sprite_overlap_check sp_a x_a y_a sp_b x_b y_b = true).
Proof.
  split; [apply overlap_symmetric |].
  split; [apply overlap_touch_false | apply overlap_shared_pixel].
Qed.

Lemma sprite_overlap_check_spec_witness :
  sprite_overlap_check rocket_sprite 0 0 rocket_sprite 2 0 = false /\
  sprite_overlap_check rocket_sprite 0 0 rocket_sprite 1 3 = true.
Proof.
  pose proof (sprite_overlap_check_spec rocket_sprite rocket_sprite 0 0 2 0) as (_ & Ht & _).
  pose proof (sprite_overlap_check_spec rocket_sprite rocket_sprite 0 0 1 3) as (_ & _ & Hs).
  split.
  - apply Ht; unfold is_u32, boxes_touch; simpl; lia.
  - apply Hs.
    + unfold box_fits; simpl; lia.
    + unfold box_fits; simpl; lia.
    + exists 1, 3. unfold in_box; simpl; lia.
Defined.

(** Two copies of a one-pixel rectangle in the last column of the coordinate
    range share their pixel, and the test answers false: the sum
    [x + width] wraps to 0. *)
Lemma overlap_wraps_at_far_edge :
  boxes_share_pixel dot_sprite UINT_MAX 0 dot_sprite UINT_MAX 0 /\
  sprite_overlap_check dot_sprite UINT_MAX 0 dot_sprite UINT_MAX 0 = false.
Proof.
  split.
  - exists UINT_MAX, 0. unfold in_box, UINT_MAX; simpl; lia.
  - reflexivity.
Qed.

(** ** Set-up of the formation *)

Lemma init_alien_array_closed :
  init_alien_array 50 = formation_alien <$> seq 0 50.
Proof. vm_compute. reflexivity. Qed.

Lemma init_death_counter_closed : init_death_counter 50 = replicate 50 10.
Proof. vm_compute. reflexivity. Qed.

Lemma formation_alien_lookup (k : nat) :
  (k < 50)%nat -> (formation_alien <$> seq 0 50) !!! k = formation_alien k.
Proof.
  intros H. apply list_lookup_total_correct.
  rewrite list_lookup_fmap, lookup_seq_lt by exact H. reflexivity.
Qed.

Lemma formation_of_grid (i j : nat) :
  (i < 10)%nat -> (j < 5)%nat ->
  formation_alien (j * 10 + i) =
  mkAlien (30 + 26 * Z.of_nat i) (250 + 23 * Z.of_nat j) (if (j <? 2)%nat then 1 else 2).
Proof.
  intros Hi Hj. unfold formation_alien, formation_x, formation_y, formation_type.
  assert (Z.of_nat (j * 10 + i) mod 10 = Z.of_nat i) as ->.
  { symmetry. apply (Z.mod_unique_pos _ _ (Z.of_nat j)); lia. }
  assert (Z.of_nat (j * 10 + i) / 10 = Z.of_nat j) as ->.
  { symmetry. apply (Z.div_unique_pos _ _ _ (Z.of_nat i)); lia. }
  f_equal.
  destruct (Nat.ltb_spec j 2), (Z.ltb_spec (Z.of_nat j) 2); (reflexivity || lia).
Qed.

(** C10. The set-up creates 50 aliens, the one of column [i] and row [j] at
    [x = 30 + 26 i], [y = 250 + 23 j], of type 1 in rows 0 and 1 and of type 2
    in rows 2 to 4; none is dead, and every death counter starts at 10. *)
Theorem init_formation (i j : nat) :
  (i < 10)%nat -> (j < 5)%nat ->
  alien_hoard_size (game init_state) = 50 /\
  length (alien_array (game init_state)) = 50%nat /\
  alien_array (game init_state) !!! (j * 10 + i)%nat =
    mkAlien (30 + 26 * Z.of_nat i) (250 + 23 * Z.of_nat j) (if (j <? 2)%nat then 1 else 2) /\
  alien_type (alien_array (game init_state) !!! (j * 10 + i)%nat) <> ALIEN_DEAD /\
  length (death_counter init_state) = 50%nat /\
  death_counter init_state !!! (j * 10 + i)%nat = 10.
Proof.
  intros Hi Hj.
  assert (Hk : (j * 10 + i < 50)%nat) by lia.
  cbn [init_state game death_counter init_game alien_array alien_hoard_size].
  rewrite init_alien_array_closed, init_death_counter_closed.
  rewrite formation_alien_lookup, formation_of_grid by assumption.
  split; [reflexivity |].
  split; [now rewrite length_fmap, length_seq |].
  split; [reflexivity |].
  split; [cbn [alien_type]; unfold ALIEN_DEAD; destruct (j <? 2)%nat; discriminate |].
  split; [apply length_replicate | now apply lookup_total_replicate_2].
Qed.

Lemma init_formation_witness :
  alien_array (game init_state) !!! 23%nat = mkAlien 108 296 2 /\
  death_counter init_state !!! 23%nat = 10.
Proof.
  pose proof (init_formation 3 2 ltac:(lia) ltac:(lia)) as (_ & _ & Ha & _ & _ & Hd).
  split; [exact Ha | exact Hd].
Defined.

(** ** Front rank *)

Lemma foldl_insert_lookup {A} `{!Inhabited A} (f : nat -> A) (idx : list nat) (l : list A) (c : nat) :
  (c < length l)%nat ->
  length (foldl (fun l i => <[i := f i]> l) l idx) = length l /\
  foldl (fun l i => <[i := f i]> l)  l idx !!! c
  = if decide (c ∈ idx) then f c else l !!! c.
Proof.
  intros Hc. induction idx as [| i idx IH] using rev_ind.
  - split; [reflexivity |]. simpl. destruct (decide (c ∈ [])) as [H | H]; [| reflexivity].
    now apply not_elem_of_nil in H.
  - destruct IH as [IHlen IHget]. rewrite foldl_snoc. split.
    + now rewrite length_insert.
    + destruct (decide (i = c)) as [-> | Hne].
      * rewrite list_lookup_total_insert_eq by lia.
        destruct (decide (c ∈ idx ++ [c])) as [_ | H]; [reflexivity |].
        exfalso. apply H, elem_of_app. right. now apply list_elem_of_singleton.
      * rewrite list_lookup_total_insert_ne by exact Hne. rewrite IHget.
        destruct (decide (c ∈ idx)) as [H | H], (decide (c ∈ idx ++ [i])) as [H' | H'];
          try reflexivity.
        -- exfalso. apply H', elem_of_app. now left.
        -- exfalso. apply elem_of_app in H' as [H' | H']; [now apply H |].
           apply list_elem_of_singleton in H'. congruence.
Qed.

Lemma update_first_line_at_eq (i : nat) (g : Game) :
  update_first_line_at i g
  = set_first_line_array (<[i := representative (alien_array g) i]> (first_line_array g)) g.
Proof.
  unfold update_first_line_at, representative.
  destruct (negb (alien_type (alien_array g !!! i) =? ALIEN_DEAD)); [reflexivity |].
  destruct (next_level (alien_array g) i (seq 1 4)); reflexivity.
Qed.

Lemma update_first_line_fold (idx : list nat) (g : Game) :
  foldl (fun g i => update_first_line_at i g) g idx
  = set_first_line_array
      (foldl (fun l i => <[i := representative (alien_array g) i]> l) (first_line_array g) idx) g.
Proof.
  induction idx as [| i idx IH] using rev_ind.
  - destruct g; reflexivity.
  - rewrite !foldl_snoc, IH, update_first_line_at_eq. reflexivity.
Qed.

Lemma update_first_line_eq (g : Game) :
  update_first_line g
  = set_first_line_array
      (foldl (fun l i => <[i := representative (alien_array g) i]> l)
         (first_line_array g) (seq 0 10)) g.
Proof. apply update_first_line_fold. Qed.

Lemma update_first_line_lookup (g : Game) (c : nat) :
  (c < 10)%nat -> length (first_line_array g) = 10%nat ->
  first_line_array (update_first_line g) !!! c = representative (alien_array g) c.
Proof.
  intros Hc Hlen. rewrite update_first_line_eq. cbn [first_line_array set_first_line_array].
  destruct (foldl_insert_lookup (representative (alien_array g)) (seq 0 10)
              (first_line_array g) c) as [_ ->]; [lia |].
  destruct (decide (c ∈ seq 0 10)) as [_ | H]; [reflexivity |].
  exfalso. apply H, elem_of_seq. lia.
Qed.

Section Representative.
Variables (arr : list Alien) (c : nat).

Let dead (r : nat) : Prop := alien_type (arr !!! (c + 10 * r)%nat) = ALIEN_DEAD.

Lemma next_level_first (r a n : nat) :
    (a <= r < a + n)%nat ->
    (forall r', (a <= r' < r)%nat -> dead r') -> ~ dead r ->
    next_level arr c (seq a n) = Some (arr !!! (c + 10 * r)%nat).
  Proof.
    revert a. induction n as [| n IH]; intros a Hr Hbefore Halive; [lia |].
    cbn [seq next_level].
    destruct (decide (a = r)) as [-> | Hne].
    - destruct (Z.eqb_spec (alien_type (arr !!! (c + 10 * r)%nat)) ALIEN_DEAD) as [E | _];
        [now destruct Halive | reflexivity].
    - rewrite (Hbefore a) by lia. cbn.
      apply IH; [lia | | exact Halive]. intros r' Hr'. apply Hbefore. lia.
  Qed.

Lemma next_level_none (js : list nat) :
    (forall r, r ∈ js -> dead r) -> next_level arr c js = None.
  Proof.
    intros H. induction js as [| j js IH]; [reflexivity |].
    cbn [next_level]. rewrite (H j) by (apply elem_of_cons; auto). cbn.
    apply IH. intros r Hr. apply H, elem_of_cons. now right.
  Qed.

Lemma representative_first_alive (r : nat) :
    (r < 5)%nat -> (forall r', (r' < r)%nat -> dead r') -> ~ dead r ->
    representative arr c = arr !!! (c + 10 * r)%nat.
  Proof.
    intros Hr Hbefore Halive. unfold representative.
    destruct r as [| r].
    - unfold dead in Halive. replace (c + 10 * 0)%nat with c in * by lia.
      destruct (Z.eqb_spec (alien_type (arr !!! c)) ALIEN_DEAD) as [E | _];
        [now destruct Halive | reflexivity].
    - pose proof (Hbefore 0%nat ltac:(lia)) as H0. unfold dead in H0.
      replace (c + 10 * 0)%nat with c in H0 by lia. rewrite H0. cbn [negb Z.eqb ALIEN_DEAD].
      rewrite (next_level_first (S r)); [reflexivity | lia | | exact Halive].
      intros r' Hr'. apply Hbefore. lia.
  Qed.

Lemma representative_all_dead :
    (forall r, (r < 5)%nat -> dead r) -> representative arr c = arr !!! (c + 40)%nat.
  Proof.
    intros H. unfold representative.
    pose proof (H 0%nat ltac:(lia)) as H0. unfold dead in H0.
    replace (c + 10 * 0)%nat with c in H0 by lia. rewrite H0. cbn [negb Z.eqb ALIEN_DEAD].
    rewrite next_level_none; [reflexivity |].
    intros r Hr. apply elem_of_seq in Hr. apply H. lia.
  Qed.
End Representative.

(** C3. For every column [c] below 10 the front-rank update stores the record
    of the lowest-numbered row of the column whose alien is not dead, and the
    record of row 4, whatever its state, when all five rows are dead. *)
Theorem front_rank_representative (g : Game) (c : nat) :
  (c < 10)%nat -> length (first_line_array g) = 10%nat ->
  (forall r, (r < 5)%nat ->
     (forall r', (r' < r)%nat ->
        alien_type (alien_array g !!! (c + 10 * r')%nat) = ALIEN_DEAD) ->
     alien_type (alien_array g !!! (c + 10 * r)%nat) <> ALIEN_DEAD ->
     first_line_array (update_first_line g) !!! c = alien_array g !!! (c + 10 * r)%nat) /\
  ((forall r, (r < 5)%nat ->
      alien_type (alien_array g !!! (c + 10 * r)%nat) = ALIEN_DEAD) ->
   first_line_array (update_first_line g) !!! c = alien_array g !!! (c + 40)%nat) /\
  alien_array (update_first_line g) = alien_array g.
Proof.
  intros Hc Hlen. split; [| split].
  - intros r Hr Hbefore Halive. rewrite update_first_line_lookup by assumption.
    now apply representative_first_alive.
  - intros Hdead. rewrite update_first_line_lookup by assumption.
    now apply representative_all_dead.
  - rewrite update_first_line_eq. reflexivity.
Qed.

Lemma front_rank_representative_witness :
  first_line_array (update_first_line thinned_game) !!! 3%nat = mkAlien 108 319 2.
Proof.
  pose proof (front_rank_representative thinned_game 3 ltac:(lia) eq_refl) as (H & _).
  rewrite (H 3%nat); [reflexivity | lia | | discriminate].
  intros r' Hr'.
  destruct r' as [| [| [| r']]]; [reflexivity | reflexivity | reflexivity | lia].
Defined.

(** ** Player movement *)

(** Unfolds the machine arithmetic and leaves the goal to [lia]. *)
Ltac machine_lia :=
  unfold u32, u8, s32, is_u32 in *;
  change (2 ^ 32) with 4294967296 in *;
  change (2 ^ 31) with 2147483648 in *;
  change (2 ^ 8) with 256 in *;
  Z.div_mod_to_equations; lia.

Lemma move_player_x (md : Z) (g : Game) :
  player_x (player (move_player md g)) =
  let x := player_x (player g) in
  let d := s32 (2 * md) in
  if d =? 0 then x
  else if u32 (x + sp_width playerSprite + d) >=? width g
       then u32 (width g - sp_width playerSprite)
       else if s32 (s32 x + d) <=? 0 then 0 else u32 (x + d).
Proof.
  unfold move_player. cbv zeta.
  destruct (s32 (2 * md) =? 0); cbn [negb]; [reflexivity |].
  destruct (u32 (player_x (player g) + sp_width playerSprite + s32 (2 * md)) >=? width g);
    [reflexivity |].
  destruct (s32 (s32 (player_x (player g)) + s32 (2 * md)) <=? 0); reflexivity.
Qed.

Lemma move_player_frame (md : Z) (g : Game) :
  player_y (player (move_player md g)) = player_y (player g) /\
  lives (player (move_player md g)) = lives (player g) /\
  set_player (player g) (move_player md g) = g.
Proof.
  unfold move_player. cbv zeta.
  destruct (negb _); [| now destruct g].
  destruct (_ >=? _); [now destruct g |].
  destruct (_ <=? _); now destruct g.
Qed.

Lemma move_player_clamped (md : Z) (g : Game) :
  width g = 300 ->
  0 <= player_x (player g) <= 290 ->
  0 <= player_x (player (move_player md g)) <= width g - sp_width playerSprite /\
  player_x (player (move_player md g)) + sp_width playerSprite <= width g /\
  (0 <= player_x (player g) + 2 * md <= width g - sp_width playerSprite ->
   player_x (player (move_player md g)) = player_x (player g) + 2 * md).
Proof.
  intros Hw Hx. rewrite move_player_x. cbv zeta. rewrite Hw. cbn [sp_width playerSprite].
  destruct (Z.eqb_spec (s32 (2 * md)) 0) as [E0 | N0].
  - split; [lia |]. split; [lia |]. intros Ht.
    rewrite s32_small in E0 by lia. lia.
  - destruct (Z.geb_spec (u32 (player_x (player g) + 10 + s32 (2 * md))) 300) as [Hr | Hr].
    + rewrite u32_small by lia. split; [lia |]. split; [lia |]. intros Ht.
      rewrite s32_small in Hr by lia. rewrite u32_small in Hr by lia. lia.
    + destruct (Z.leb_spec (s32 (s32 (player_x (player g)) + s32 (2 * md))) 0) as [Hl | Hl].
      * split; [lia |]. split; [lia |]. intros Ht.
        rewrite (s32_small (2 * md)) in Hl by lia.
        rewrite !s32_small in Hl by (try rewrite s32_small; lia). lia.
      * assert (0 < player_x (player g) + s32 (2 * md) < 290) as Hmid.
        { pose proof (s32_range (2 * md)).
          rewrite (s32_small (player_x (player g))) in Hl by lia.
          clear N0. machine_lia. }
        rewrite u32_small by lia. split; [lia |]. split; [lia |]. intros Ht.
        rewrite s32_small by lia. reflexivity.
Qed.

(** C9. After the movement step the player's [x] lies between 0 and
    [width - playerSprite.width], so the sprite's box stays inside
    [[0, width)]; and when the target [x + 2 * move_dir] itself lies in that
    range, so that no clamping applies, [x] changes by exactly twice the
    accumulator. *)
Theorem move_player_in_field (md : Z) (g : Game) :
  width g = 300 ->
  0 <= player_x (player g) <= 290 ->
  0 <= player_x (player (move_player md g)) <= width g - sp_width playerSprite /\
  player_x (player (move_player md g)) + sp_width playerSprite <= width g /\
  (0 <= player_x (player g) + 2 * md <= width g - sp_width playerSprite ->
   player_x (player (move_player md g)) = player_x (player g) + 2 * md) /\
  player_y (player (move_player md g)) = player_y (player g) /\
  lives (player (move_player md g)) = lives (player g).
Proof.
  intros Hw Hx.
  destruct (move_player_clamped md g Hw Hx) as (Hrange & Hbox & Hexact).
  destruct (move_player_frame md g) as (Hy & Hl & _).
  split; [exact Hrange |]. split; [exact Hbox |]. split; [exact Hexact |].
  split; [exact Hy | exact Hl].
Qed.

Lemma move_player_in_field_witness :
  player_x (player (move_player 1 init_game)) = 152 /\
  0 <= player_x (player (move_player (-200) init_game)) <= 290.
Proof.
  pose proof (move_player_in_field 1 init_game eq_refl ltac:(simpl; lia)) as (_ & _ & H1 & _).
  pose proof (move_player_in_field (-200) init_game eq_refl ltac:(simpl; lia)) as (H2 & _).
  split; [apply H1; change (0 <= 150 + 2 * 1 <= 300 - 10); lia | exact H2].
Defined.

(** ** Alien fire *)

Lemma alien_fire_cases (rv : Z) (g : Game) :
  let fc := u32 (frame_counter g + 1) in
  let a := arr_get (first_line_array g) (Z.rem rv 10) in
  alien_fire rv g =
  if (fc =? 30) && (num_rockets g <? GAME_MAX_ROCKETS) then
    if negb (alien_type a =? ALIEN_DEAD) then
      set_frame_counter 0
        (set_num_rockets (u32 (num_rockets g + 1))
           (set_rockets (<[Z.to_nat (num_rockets g) := alien_rocket a]> (rockets g)) g))
    else set_frame_counter 0 g
  else set_frame_counter fc g.
Proof.
  unfold alien_fire. cbv zeta.
  cbn [frame_counter num_rockets first_line_array rockets set_frame_counter].
  destruct ((u32 (frame_counter g + 1) =? 30) && (num_rockets g <? GAME_MAX_ROCKETS));
    [| reflexivity].
  destruct (negb (alien_type (arr_get (first_line_array g) (Z.rem rv 10)) =? ALIEN_DEAD));
    reflexivity.
Qed.

(** C7 (amended). Every rocket an alien fire attempt spawns is anchored at
    the firing front-rank alien, 4 to the right of and 10 below its position,
    and carries the direction value -3: a negative value, which moves the
    rocket down the field towards the player by 3 per tick. *)
Theorem alien_fire_spawn (rv : Z) (g : Game) :
  0 <= num_rockets g -> length (rockets g) = 128%nat ->
  num_rockets (alien_fire rv g) <> num_rockets g ->
  let a := arr_get (first_line_array g) (Z.rem rv 10) in
  let r := rockets (alien_fire rv g) !!! Z.to_nat (num_rockets g) in
  alien_type a <> ALIEN_DEAD /\
  num_rockets (alien_fire rv g) = num_rockets g + 1 /\
  rocket_x r = u32 (alien_x a + 4) /\
  rocket_y r = u32 (alien_y a - 10) /\
  dir r = -3 /\ dir r < 0 /\
  (3 <= rocket_y r -> u32 (rocket_y r + dir r) = rocket_y r - 3).
Proof.
  intros Hn Hlen Hspawn. cbv zeta. revert Hspawn. rewrite alien_fire_cases. cbv zeta.
  destruct (u32 (frame_counter g + 1) =? 30); cbn [andb]; [| now intros []].
  destruct (Z.ltb_spec (num_rockets g) GAME_MAX_ROCKETS) as [Hfree | _]; [| now intros []].
  destruct (Z.eqb_spec (alien_type (arr_get (first_line_array g) (Z.rem rv 10))) ALIEN_DEAD)
    as [_ | Halive]; cbn [negb]; [now intros [] |].
  intros _. unfold GAME_MAX_ROCKETS in Hfree.
  cbn [num_rockets rockets set_frame_counter set_num_rockets set_rockets].
  rewrite list_lookup_total_insert_eq by lia.
  cbn [alien_rocket rocket_x rocket_y dir].
  split; [exact Halive |]. split; [apply u32_small; lia |].
  split; [reflexivity |]. split; [reflexivity |]. split; [reflexivity |]. split; [lia |].
  intros Hy. pose proof (u32_range (alien_y (arr_get (first_line_array g) (Z.rem rv 10)) - 10)).
  apply u32_small. unfold is_u32 in *. lia.
Qed.

Lemma alien_fire_spawn_witness :
  num_rockets (alien_fire 7 armed_game) = 1 /\
  rocket_x (rockets (alien_fire 7 armed_game) !!! 0%nat) = 216 /\
  dir (rockets (alien_fire 7 armed_game) !!! 0%nat) = -3.
Proof.
  pose proof (alien_fire_spawn 7 armed_game
                ltac:(vm_compute; discriminate) eq_refl ltac:(vm_compute; discriminate))
    as (_ & Hn & Hx & _ & Hd & _).
  split; [exact Hn |]. split; [exact Hx | exact Hd].
Defined.

(** In the set-up the alien of column 0 fires: the rocket it spawns carries
    the direction value -3, which is not positive. *)
Lemma alien_fire_direction_negative :
  num_rockets (alien_fire 0 armed_game) = 1 /\
  rockets (alien_fire 0 armed_game) !!! 0%nat = mkRocket 34 240 (-3) /\
  ~ 0 < dir (rockets (alien_fire 0 armed_game) !!! 0%nat).
Proof.
  split; [reflexivity |]. split; [reflexivity |].
  change (~ 0 < -3). lia.
Qed.

(** ** Blitting *)

Section DrawSprite.
Variables (sprite : Sprite) (x y color px py : Z).

Lemma draw_pixel_frame (i j : nat) (b : Buffer) :
  buf_width (draw_pixel sprite x y color i j b) = buf_width b /\
  buf_height (draw_pixel sprite x y color i j b) = buf_height b /\
  length (buf_data (draw_pixel sprite x y color i j b)) = length (buf_data b).
Proof.
  unfold draw_pixel. cbv zeta.
  destruct (_ && _ && _); cbn [buf_width buf_height buf_data];
    [rewrite length_insert |]; auto.
Qed.

Lemma draw_pixel_wf (i j : nat) (b : Buffer) :
  buffer_wf b -> buffer_wf (draw_pixel sprite x y color i j b).
Proof.
  unfold buffer_wf. destruct (draw_pixel_frame i j b) as (-> & -> & ->). auto.
Qed.

Lemma cell_index_bound (w h X Y : Z) :
  0 <= X < w -> 0 <= Y < h -> 0 <= Y * w + X < w * h.
Proof. intros HX HY. nia. Qed.

Lemma cell_index_inj (w X Y X' Y' : Z) :
  0 <= X < w -> 0 <= X' < w -> Y * w + X = Y' * w + X' -> X = X' /\ Y = Y'.
Proof.
  intros HX HX' E. assert (Y = Y') by nia. subst. lia.
Qed.

Lemma draw_pixel_get (i j : nat) (b : Buffer) :
  buffer_wf b -> 0 <= px < buf_width b -> 0 <= py < buf_height b ->
  pixel (draw_pixel sprite x y color i j b) px py
  = if lands sprite x y px py i j then color else pixel b px py.
Proof.
  intros (Hw & Hh & Hsz & Hlen) Hpx Hpy. unfold draw_pixel, lands, pixel. cbv zeta.
  set (Y := u32 (sp_height sprite - 1 + y - Z.of_nat j)).
  set (X := u32 (x + Z.of_nat i)).
  pose proof (u32_range (sp_height sprite - 1 + y - Z.of_nat j)) as HY. fold Y in HY.
  pose proof (u32_range (x + Z.of_nat i)) as HX. fold X in HX.
  unfold is_u32 in HX, HY.
  pose proof (cell_index_bound _ _ _ _ Hpx Hpy) as Hp.
  destruct (mask_bit sprite (Z.of_nat i) (Z.of_nat j)); cbn [andb]; [| reflexivity].
  destruct (Z.ltb_spec Y (buf_height b)) as [HYb | HYb]; cbn [andb].
  - destruct (Z.ltb_spec X (buf_width b)) as [HXb | HXb]; cbn [buf_data buf_width].
    + pose proof (cell_index_bound (buf_width b) (buf_height b) X Y ltac:(lia) ltac:(lia)) as Hc.
      rewrite (u32_small (Y * buf_width b + X)) by lia.
      rewrite !arr_get_Z by (rewrite ?length_insert; lia).
      destruct (Z.eqb_spec X px) as [EX | NX]; cbn [andb].
      * destruct (Z.eqb_spec Y py) as [EY | NY].
        -- subst. apply list_lookup_total_insert_eq. lia.
        -- apply list_lookup_total_insert_ne. intros E. apply Z2Nat.inj in E; [| lia | lia].
           apply cell_index_inj in E; lia.
      * apply list_lookup_total_insert_ne. intros E. apply Z2Nat.inj in E; [| lia | lia].
        apply cell_index_inj in E; lia.
    + destruct (Z.eqb_spec X px); [lia | reflexivity].
  - destruct (Z.eqb_spec Y py); [lia |]. now rewrite andb_false_r.
Qed.

Lemma draw_pixels_get (i : nat) (js : list nat) (b : Buffer) :
  buffer_wf b -> 0 <= px < buf_width b -> 0 <= py < buf_height b ->
  let out := foldl (fun b j => draw_pixel sprite x y color i j b) b js in
  buffer_wf out /\ buf_width out = buf_width b /\ buf_height out = buf_height b /\
  length (buf_data out) = length (buf_data b) /\
  pixel out px py = if existsb (lands sprite x y px py i) js then color else pixel b px py.
Proof.
  revert b. induction js as [| j js IH]; intros b Hwf Hpx Hpy; cbn [foldl existsb].
  - auto.
  - destruct (draw_pixel_frame i j b) as (Ew & Eh & El).
    destruct (IH (draw_pixel sprite x y color i j b)) as (Hwf' & Ew' & Eh' & El' & Eg);
      [now apply draw_pixel_wf | lia | lia |].
    split; [exact Hwf' |]. split; [congruence |]. split; [congruence |].
    split; [congruence |].
    rewrite Eg, draw_pixel_get by assumption.
    destruct (lands sprite x y px py i j), (existsb (lands sprite x y px py i) js); reflexivity.
Qed.

Lemma draw_columns_get (cols : list nat) (b : Buffer) :
  buffer_wf b -> 0 <= px < buf_width b -> 0 <= py < buf_height b ->
  let out := foldl (fun b i => draw_column sprite x y color i b) b cols in
  buffer_wf out /\ buf_width out = buf_width b /\ buf_height out = buf_height b /\
  length (buf_data out) = length (buf_data b) /\
  pixel out px py
  = if existsb (fun i => existsb (lands sprite x y px py i)
                           (seq 0 (Z.to_nat (sp_height sprite)))) cols
    then color else pixel b px py.
Proof.
  revert b. induction cols as [| i cols IH]; intros b Hwf Hpx Hpy; cbn [foldl existsb].
  - auto.
  - destruct (draw_pixels_get i (seq 0 (Z.to_nat (sp_height sprite))) b Hwf Hpx Hpy)
      as (Hwf1 & Ew1 & Eh1 & El1 & Eg1).
    fold (draw_column sprite x y color i b) in *.
    destruct (IH (draw_column sprite x y color i b)) as (Hwf' & Ew' & Eh' & El' & Eg);
      [exact Hwf1 | lia | lia |].
    split; [exact Hwf' |]. split; [congruence |]. split; [congruence |].
    split; [congruence |].
    rewrite Eg, Eg1.
    destruct (existsb (lands sprite x y px py i) _), (existsb _ cols); reflexivity.
Qed.

Lemma covers_iff_lands :
  covers sprite x y px py <->
  existsb (fun i => existsb (lands sprite x y px py i)
                      (seq 0 (Z.to_nat (sp_height sprite))))
          (seq 0 (Z.to_nat (sp_width sprite))) = true.
Proof.
  rewrite existsb_exists. split.
  - intros (i & j & Hi & Hj & Hm & Ex & Ey).
    exists (Z.to_nat i). split; [apply in_seq; lia |].
    apply existsb_exists. exists (Z.to_nat j). split; [apply in_seq; lia |].
    unfold lands. rewrite !Z2Nat.id by lia. rewrite Hm, Ex, Ey, !Z.eqb_refl. reflexivity.
  - intros (i & Hi & He). apply existsb_exists in He as (j & Hj & Hl).
    apply in_seq in Hi, Hj. unfold lands in Hl.
    apply andb_true_iff in Hl as [Hl Ey]. apply andb_true_iff in Hl as [Hm Ex].
    apply Z.eqb_eq in Ex, Ey.
    exists (Z.of_nat i), (Z.of_nat j). repeat split; (lia || assumption).
Qed.

Lemma covers_exact_iff :
  0 <= x -> 0 <= y -> x + sp_width sprite <= 2 ^ 32 -> y + sp_height sprite <= 2 ^ 32 ->
  (covers sprite x y px py <-> covers_exact sprite x y px py).
Proof.
  intros Hx Hy Hxw Hyh. unfold covers, covers_exact.
  split; intros (i & j & Hi & Hj & Hm & Ex & Ey); exists i, j.
  - rewrite u32_small in Ex by lia. rewrite u32_small in Ey by lia.
    split; [exact Hi |]. split; [exact Hj |]. split; [exact Hm |]. lia.
  - rewrite !u32_small by lia.
    split; [exact Hi |]. split; [exact Hj |]. split; [exact Hm |]. lia.
Qed.
End DrawSprite.

(** C4 (amended). [DrawSprite] keeps the size of the buffer and writes [color]
    exactly to the pixels [(x + i, y + height - 1 - j)], the coordinates taken
    modulo 2^32, for which the mask entry [(i, j)] is set and which lie in the
    buffer; every other pixel keeps its value. When [x + width] and
    [y + height] do not exceed 2^32 the coordinates are the plain sums. *)
Theorem DrawSprite_pixels (buffer : Buffer) (sprite : Sprite) (x y color px py : Z) :
  buffer_wf buffer -> 0 <= px < buf_width buffer -> 0 <= py < buf_height buffer ->
  buf_width (DrawSprite buffer sprite x y color) = buf_width buffer /\
  buf_height (DrawSprite buffer sprite x y color) = buf_height buffer /\
  length (buf_data (DrawSprite buffer sprite x y color)) = length (buf_data buffer) /\
  (covers sprite x y px py -> pixel (DrawSprite buffer sprite x y color) px py = color) /\
  (~ covers sprite x y px py ->
   pixel (DrawSprite buffer sprite x y color) px py = pixel buffer px py) /\
  (0 <= x -> 0 <= y -> x + sp_width sprite <= 2 ^ 32 -> y + sp_height sprite <= 2 ^ 32 ->
   (covers sprite x y px py <-> covers_exact sprite x y px py)).
Proof.
  intros Hwf Hpx Hpy.
  destruct (draw_columns_get sprite x y color px py (seq 0 (Z.to_nat (sp_width sprite)))
              buffer Hwf Hpx Hpy) as (_ & Ew & Eh & El & Eg).
  fold (DrawSprite buffer sprite x y color) in *.
  split; [exact Ew |]. split; [exact Eh |]. split; [exact El |].
  split; [| split].
  - intros Hc. apply covers_iff_lands in Hc. now rewrite Eg, Hc.
  - intros Hc. rewrite Eg.
    destruct (existsb _ _) eqn:E; [| reflexivity].
    exfalso. apply Hc. now apply covers_iff_lands.
  - apply covers_exact_iff.
Qed.

Lemma DrawSprite_pixels_witness :
  pixel (DrawSprite small_buffer dash_sprite 2 1 9) 2 1 = 9 /\
  pixel (DrawSprite small_buffer dash_sprite 2 1 9) 0 1 = 0.
Proof.
  pose proof (DrawSprite_pixels small_buffer dash_sprite 2 1 9 2 1) as (_ & _ & _ & Hin & _).
  { unfold buffer_wf; simpl; lia. } { simpl; lia. } { simpl; lia. }
  pose proof (DrawSprite_pixels small_buffer dash_sprite 2 1 9 0 1) as (_ & _ & _ & _ & Hout & _).
  { unfold buffer_wf; simpl; lia. } { simpl; lia. } { simpl; lia. }
  split.
  - apply Hin. exists 0, 0. repeat split; (simpl; lia) || reflexivity.
  - rewrite Hout; [reflexivity |].
    intros (i & j & Hi & Hj & _ & Ex & _). cbn [sp_width dash_sprite] in Hi.
    assert (i = 0 \/ i = 1) as [-> | ->] by lia; discriminate Ex.
Defined.

(** A sprite of two pixels anchored in the last column of the coordinate
    range: its second pixel has the coordinate 2^32, outside every buffer, yet
    the blit writes it to column 0, where [x + 1] wraps to. *)
Lemma DrawSprite_wraps_at_far_edge :
  pixel (DrawSprite row_buffer dash_sprite UINT_MAX 0 7) 0 0 = 7 /\
  pixel row_buffer 0 0 = 0 /\
  ~ covers_exact dash_sprite UINT_MAX 0 0 0.
Proof.
  split; [reflexivity |]. split; [reflexivity |].
  intros (i & j & Hi & _ & _ & Ex & _). unfold UINT_MAX in Ex. lia.
Qed.

(** ** The alien-fire counter *)

Lemma alien_fire_counter_reset (rv : Z) (g : Game) :
  u32 (frame_counter g + 1) = 30 -> num_rockets g < GAME_MAX_ROCKETS ->
  frame_counter (alien_fire rv g) = 0.
Proof.
  intros Hc Hn. rewrite alien_fire_cases. cbv zeta. rewrite Hc. cbn [Z.eqb Pos.eqb andb].
  destruct (Z.ltb_spec (num_rockets g) GAME_MAX_ROCKETS); [| lia].
  destruct (negb _); reflexivity.
Qed.

Lemma alien_fire_counter_step (rv : Z) (g : Game) :
  u32 (frame_counter g + 1) <> 30 ->
  frame_counter (alien_fire rv g) = u32 (frame_counter g + 1).
Proof.
  intros Hc. rewrite alien_fire_cases. cbv zeta.
  destruct (Z.eqb_spec (u32 (frame_counter g + 1)) 30); [contradiction | reflexivity].
Qed.

(** With room in the pool the counter stays below 30. *)
Lemma alien_fire_counter_bound (rv : Z) (g : Game) :
  num_rockets g < GAME_MAX_ROCKETS -> 0 <= frame_counter g <= 29 ->
  0 <= frame_counter (alien_fire rv g) <= 29.
Proof.
  intros Hn Hc. destruct (Z.eq_dec (u32 (frame_counter g + 1)) 30) as [E | N].
  - rewrite alien_fire_counter_reset by assumption. lia.
  - rewrite alien_fire_counter_step by assumption.
    rewrite u32_small in * by lia. lia.
Qed.

(** With the pool full the counter is never reset. *)
Lemma alien_fire_counter_full (rv : Z) (g : Game) :
  GAME_MAX_ROCKETS <= num_rockets g ->
  alien_fire rv g = set_frame_counter (u32 (frame_counter g + 1)) g.
Proof.
  intros Hn. rewrite alien_fire_cases. cbv zeta.
  destruct (Z.ltb_spec (num_rockets g) GAME_MAX_ROCKETS); [lia |].
  now rewrite andb_false_r.
Qed.


(** ** Geometry of the formation *)

Lemma formation_type_cases (k : nat) : formation_type k = 1 \/ formation_type k = 2.
Proof. unfold formation_type. destruct (_ <? _); auto. Qed.

Lemma formation_bounds (k : nat) :
  (k < 50)%nat -> 30 <= formation_x k <= 264 /\ 250 <= formation_y k <= 342.
Proof. intros H. unfold formation_x, formation_y. Z.div_mod_to_equations. lia. Qed.

Lemma live_sprite_dims (s : State) (t : Z) :
  animation_ok (alien_animation s) -> t = 1 \/ t = 2 ->
  sp_width (animation_sprite (animation_of s t)) = live_width t /\
  sp_height (animation_sprite (animation_of s t)) = 8.
Proof.
  intros (t0 & t1 & H0 & H1 & E) Ht. unfold animation_of, animation_sprite. rewrite E.
  destruct Ht as [-> | ->].
  - change (arr_get _ (1 - 1)) with
      (mkSpriteAnimation true 2 10 t0 [alien_sprites !!! 0%nat; alien_sprites !!! 1%nat]).
    cbn [time frame_duration frames].
    assert (t0 / 10 = 0 \/ t0 / 10 = 1) as [-> | ->]
      by (Z.div_mod_to_equations; lia); split; reflexivity.
  - change (arr_get _ (2 - 1)) with
      (mkSpriteAnimation true 2 10 t1 [alien_sprites !!! 2%nat; alien_sprites !!! 3%nat]).
    cbn [time frame_duration frames].
    assert (t1 / 10 = 0 \/ t1 / 10 = 1) as [-> | ->]
      by (Z.div_mod_to_equations; lia); split; reflexivity.
Qed.

(** A rocket overlaps the box of at most one slot of the formation: the
    columns are 26 apart and the rows 23, the rocket is 2 by 5 and an alien at
    most 11 by 8. *)
Lemma formation_overlap_unique (r : Rocket) (spj spk : Sprite) (j k : nat) :
  rocket_ok r -> (j < 50)%nat -> (k < 50)%nat ->
  0 <= sp_width spj <= 11 -> sp_height spj = 8 ->
  0 <= sp_width spk <= 11 -> sp_height spk = 8 ->
  sprite_overlap_check rocket_sprite (rocket_x r) (rocket_y r)
    spj (formation_x j) (formation_y j) = true ->
  sprite_overlap_check rocket_sprite (rocket_x r) (rocket_y r)
    spk (formation_x k) (formation_y k) = true ->
  j = k.
Proof.
  intros [Hx Hy] Hj Hk Wj Ej Wk Ek Oj Ok.
  apply overlap_true_iff in Oj, Ok. rewrite Ej in Oj. rewrite Ek in Ok.
  cbn [sp_width sp_height rocket_sprite] in Oj, Ok.
  pose proof (formation_bounds j Hj) as Bj. pose proof (formation_bounds k Hk) as Bk.
  rewrite (u32_small (formation_x j + _)), (u32_small (formation_y j + _)) in Oj by lia.
  rewrite (u32_small (formation_x k + _)), (u32_small (formation_y k + _)) in Ok by lia.
  assert (u32 (rocket_x r + 2) <= rocket_x r + 2 /\ u32 (rocket_y r + 5) <= rocket_y r + 5)
    as [Ux Uy] by (clear - Hx Hy; machine_lia).
  unfold formation_x, formation_y in *.
  assert (Z.of_nat j mod 10 = Z.of_nat k mod 10) by (Z.div_mod_to_equations; lia).
  assert (Z.of_nat j / 10 = Z.of_nat k / 10) by (Z.div_mod_to_equations; lia).
  assert (Z.of_nat j = Z.of_nat k) by (Z.div_mod_to_equations; lia).
  lia.
Qed.

(** ** Counting the dead *)

Lemma dead_count_bound (l : list Alien) : 0 <= dead_count l <= Z.of_nat (length l).
Proof.
  induction l as [| a l IH]; cbn [dead_count foldr length]; [lia |].
  fold (dead_count l). destruct (alien_type a =? ALIEN_DEAD); lia.
Qed.

Lemma dead_count_kill (l : list Alien) (k : nat) (a' : Alien) :
  (k < length l)%nat ->
  alien_type (l !!! k) <> ALIEN_DEAD -> alien_type a' = ALIEN_DEAD ->
  dead_count (<[k := a']> l) = dead_count l + 1.
Proof.
  revert k. induction l as [| a l IH]; intros k Hk Halive Hdead; cbn [length] in Hk; [lia |].
  destruct k as [| k]; cbn [insert list_insert dead_count foldr]; fold (dead_count l).
  - cbn in Halive. rewrite Hdead. cbn.
    destruct (Z.eqb_spec (alien_type a) ALIEN_DEAD); [contradiction | reflexivity].
  - fold (dead_count (<[k := a']> l)). rewrite IH; [| lia | exact Halive | exact Hdead].
    destruct (alien_type a =? ALIEN_DEAD); lia.
Qed.

(** ** The invariant of the game loop *)

Lemma rocket_ok_default : rocket_ok inhabitant.
Proof. split; unfold is_u32; cbn; lia. Qed.

Lemma rockets_insert_ok (l : list Rocket) (i : nat) (r : Rocket) :
  (forall k, rocket_ok (l !!! k)) -> rocket_ok r ->
  forall k, rocket_ok (<[i := r]> l !!! k).
Proof. intros Hl Hr k. rewrite list_lookup_total_insert. destruct (decide _); auto. Qed.

Lemma rockets_get_ok (l : list Rocket) (z : Z) :
  (forall k, rocket_ok (l !!! k)) -> rocket_ok (arr_get l z).
Proof.
  intros Hl. unfold arr_get. destruct (_ && _); [apply Hl | apply rocket_ok_default].
Qed.

(** A change of the game that keeps the horde keeps the invariant, given the
    facts about what it did change. *)
Lemma Inv_with_game (s : State) (g' : Game) :
  Inv s ->
  height g' = 400 -> width g' = 300 -> alien_hoard_size g' = 50 ->
  alien_array g' = alien_array (game s) ->
  length (first_line_array g') = 10%nat -> length (rockets g') = 128%nat ->
  0 <= num_rockets g' <= 128 -> is_u32 (frame_counter g') ->
  (forall i, rocket_ok (rockets g' !!! i)) ->
  0 <= player_x (player g') <= 290 /\ player_y (player g') = 25 /\
    1 <= lives (player g') <= 3 ->
  Inv (set_game g' s).
Proof.
  intros [] Hh Hw Hs Ha Hf Hr Hn Hc Hok Hp.
  constructor; cbn [game set_game death_counter alien_animation score aliens_killed];
    rewrite ?Ha; assumption.
Qed.

Lemma alive_alien (s : State) (k : nat) :
  Inv s -> (k < 50)%nat -> alien_type (alien_array (game s) !!! k) <> ALIEN_DEAD ->
  alien_array (game s) !!! k = formation_alien k /\ death_counter s !!! k = 10.
Proof.
  intros Hinv Hk Halive. destruct (inv_aliens s Hinv k Hk) as (Ey & [(Et & Ex & Ed) | (Et & _)]);
    [| contradiction].
  split; [| exact Ed]. destruct (alien_array (game s) !!! k); cbn in *.
  unfold formation_alien. congruence.
Qed.

Lemma rocket_hits_true (i j : nat) (s : State) :
  rocket_hits i j s = true <->
  alien_type (alien_array (game s) !!! j) <> ALIEN_DEAD /\
  sprite_overlap_check rocket_sprite
    (rocket_x (rockets (game s) !!! i)) (rocket_y (rockets (game s) !!! i))
    (animation_sprite (animation_of s (alien_type (alien_array (game s) !!! j))))
    (alien_x (alien_array (game s) !!! j)) (alien_y (alien_array (game s) !!! j)) = true.
Proof.
  unfold rocket_hits. cbv zeta. rewrite andb_true_iff, negb_true_iff, Z.eqb_neq. tauto.
Qed.

Lemma check_alien_cases (i j : nat) (s : State) :
  check_alien i j s =
  if rocket_hits i j s
  then hit_alien i j
         (animation_sprite (animation_of s (alien_type (alien_array (game s) !!! j)))) s
  else s.
Proof.
  unfold check_alien, rocket_hits. cbv zeta.
  destruct (alien_type (alien_array (game s) !!! j) =? ALIEN_DEAD); reflexivity.
Qed.

(** Two aliens of a state of the invariant that one rocket record overlaps
    while both are alive are the same alien. *)
Lemma overlaps_alien_unique (s : State) (r : Rocket) (j k : nat) :
  Inv s -> rocket_ok r -> (j < 50)%nat -> (k < 50)%nat ->
  overlaps_alien s r j = true -> overlaps_alien s r k = true -> j = k.
Proof.
  intros Hinv Hr Hj Hk Oj Ok. unfold overlaps_alien in Oj, Ok. cbv zeta in Oj, Ok.
  apply andb_true_iff in Oj as [Aj Oj], Ok as [Ak Ok].
  apply negb_true_iff, Z.eqb_neq in Aj, Ak.
  destruct (alive_alien s j Hinv Hj Aj) as [Ej _], (alive_alien s k Hinv Hk Ak) as [Ek _].
  rewrite Ej in Oj. rewrite Ek in Ok. cbn [formation_alien alien_x alien_y alien_type] in Oj, Ok.
  destruct (live_sprite_dims s (formation_type j) (inv_animation s Hinv)
              (formation_type_cases j)) as [Wj Hj'].
  destruct (live_sprite_dims s (formation_type k) (inv_animation s Hinv)
              (formation_type_cases k)) as [Wk Hk'].
  apply (formation_overlap_unique r
           (animation_sprite (animation_of s (formation_type j)))
           (animation_sprite (animation_of s (formation_type k))) j k);
    try assumption.
  - rewrite Wj. unfold live_width. destruct (_ =? _); lia.
  - rewrite Wk. unfold live_width. destruct (_ =? _); lia.
Qed.

Lemma rocket_hits_overlaps (i j : nat) (s : State) :
  rocket_hits i j s = overlaps_alien s (rockets (game s) !!! i) j.
Proof. reflexivity. Qed.

(** ** The hit of an alien *)

Lemma hit_alien_effect (i j : nat) (s : State) :
  Inv s -> (j < 50)%nat -> Z.of_nat i < num_rockets (game s) ->
  rocket_hits i j s = true ->
  let a := alien_array (game s) !!! j in
  let sp := animation_sprite (animation_of s (alien_type a)) in
  let s' := check_alien i j s in
  score s' = score s + 10 * (4 - alien_type a) /\
  aliens_killed s' = aliens_killed s + 1 /\
  alien_array (game s') =
    <[j := mkAlien (alien_x a - (sp_width alien_death_sprite - sp_width sp) / 2)
                   (alien_y a) ALIEN_DEAD]> (alien_array (game s)) /\
  num_rockets (game s') = num_rockets (game s) - 1 /\
  rockets (game s') =
    <[i := rockets (game s) !!! Z.to_nat (num_rockets (game s) - 1)]> (rockets (game s)) /\
  death_counter s' = death_counter s /\
  alien_animation s' = alien_animation s /\
  same_frame (game s) (game s').
Proof.
  intros Hinv Hj Hi Hhit. cbv zeta. rewrite check_alien_cases, Hhit.
  apply rocket_hits_true in Hhit as [Halive Hov].
  destruct (alive_alien s j Hinv Hj Halive) as [Ea Ed].
  pose proof (inv_num s Hinv) as Hn. pose proof (inv_rockets_len s Hinv) as Hlen.
  pose proof (inv_score s Hinv) as Hsc. pose proof (inv_killed s Hinv) as Hk.
  pose proof (dead_count_bound (alien_array (game s))) as Hdc.
  rewrite (inv_aliens_len s Hinv) in Hdc.
  destruct (live_sprite_dims s (formation_type j) (inv_animation s Hinv)
              (formation_type_cases j)) as [Wj _].
  pose proof (formation_bounds j Hj) as Hb.
  unfold hit_alien, remove_rocket. cbv zeta.
  cbn [game set_game set_score set_aliens_killed score aliens_killed death_counter
       alien_animation set_alien_array set_rockets set_num_rockets
       alien_array num_rockets rockets].
  rewrite Ea. cbn [formation_alien alien_x alien_y alien_type set_type set_x].
  rewrite Wj. cbn [sp_width alien_death_sprite].
  assert (u32 (num_rockets (game s) - 1) = num_rockets (game s) - 1) as -> by (apply u32_small; lia).
  rewrite arr_get_Z by lia.
  assert (Hshift : u32 (formation_x j - u32 (13 - live_width (formation_type j)) / 2)
                   = formation_x j - (13 - live_width (formation_type j)) / 2).
  { unfold live_width. destruct (formation_type_cases j) as [-> | ->]; cbn [Z.eqb Pos.eqb].
    - change (u32 (13 - 11) / 2) with ((13 - 11) / 2). apply u32_small.
      change ((13 - 11) / 2) with 1. lia.
    - change (u32 (13 - 8) / 2) with ((13 - 8) / 2). apply u32_small.
      change ((13 - 8) / 2) with 2. lia. }
  rewrite Hshift.
  split; [destruct (formation_type_cases j) as [-> | ->]; apply u32_small; lia |].
  split; [apply s32_small; lia |].
  split; [reflexivity |]. split; [reflexivity |]. split; [reflexivity |].
  split; [reflexivity |]. split; [reflexivity |].
  repeat split.
Qed.

Lemma shift_cases (j : nat) :
  (13 - live_width (formation_type j)) / 2 = 1 \/ (13 - live_width (formation_type j)) / 2 = 2.
Proof.
  unfold live_width. destruct (formation_type_cases j) as [-> | ->]; [left | right]; reflexivity.
Qed.

Lemma check_alien_Inv (i j : nat) (s : State) :
  Inv s -> (j < 50)%nat -> Z.of_nat i < num_rockets (game s) ->
  rocket_hits i j s = true -> Inv (check_alien i j s).
Proof.
  intros Hinv Hj Hi Hhit.
  destruct (hit_alien_effect i j s Hinv Hj Hi Hhit)
    as (Esc & Ek & Ea & En & Er & Ed & Ean & Eh & Ew & Es & Ef & El & Ep).
  apply rocket_hits_true in Hhit as [Halive Hov].
  destruct (alive_alien s j Hinv Hj Halive) as [Eform Ecnt].
  destruct (live_sprite_dims s (formation_type j) (inv_animation s Hinv)
              (formation_type_cases j)) as [Wj _].
  rewrite Eform in Ea, Esc. cbn [formation_alien alien_x alien_y alien_type] in Ea, Esc.
  rewrite Wj in Ea. cbn [sp_width alien_death_sprite] in Ea.
  destruct Hinv.
  constructor.
  - congruence.
  - congruence.
  - congruence.
  - rewrite Ea, length_insert. assumption.
  - congruence.
  - congruence.
  - rewrite Er, length_insert. assumption.
  - lia.
  - congruence.
  - intros k Hk. rewrite Ea, Ed, list_lookup_total_insert.
    destruct (decide (j = k /\ (j < length (alien_array (game s)))%nat)) as [[<- _] | _];
      [| now apply inv_aliens0].
    split; [reflexivity |]. right. cbn [alien_type alien_x].
    split; [reflexivity |]. rewrite Ecnt. pose proof (shift_cases j). lia.
  - rewrite Er. apply rockets_insert_ok; [assumption | apply inv_rockets0].
  - congruence.
  - rewrite Ep. assumption.
  - rewrite Ek, Ea, dead_count_kill; [lia | lia | exact Halive | reflexivity].
  - rewrite Esc, Ek. destruct (formation_type_cases j) as [-> | ->]; lia.
Qed.

Lemma check_alien_ScanInv (i j : nat) (s : State) :
  ScanInv i s -> (j < 50)%nat -> ScanInv i (check_alien i j s).
Proof.
  intros [Hinv Hlive] Hj. destruct (rocket_hits i j s) eqn:Hhit;
    [| rewrite check_alien_cases, Hhit; now split].
  destruct Hlive as [Hi | Hno]; [| rewrite Hno in Hhit by exact Hj; discriminate].
  split; [now apply check_alien_Inv |].
  destruct (hit_alien_effect i j s Hinv Hj Hi Hhit)
    as (_ & _ & Ea & En & Er & _ & Ean & _).
  destruct (Z.lt_ge_cases (Z.of_nat i) (num_rockets (game s) - 1)) as [Hlt | Hge];
    [left; lia | right].
  assert (Z.to_nat (num_rockets (game s) - 1) = i) as Ei by lia.
  intros k Hk. rewrite rocket_hits_overlaps.
  pose proof (inv_rockets_len s Hinv) as Hlen. pose proof (inv_num s Hinv) as Hn.
  rewrite Er, Ei, list_lookup_total_insert_eq by lia.
  unfold overlaps_alien. cbv zeta. unfold animation_of. rewrite Ea, Ean.
  rewrite list_lookup_total_insert.
  destruct (decide (j = k /\ (j < length (alien_array (game s)))%nat)) as [[<- _] | Hne];
    [reflexivity |].
  apply not_true_is_false. intros Hk'.
  apply Hne. split; [| rewrite (inv_aliens_len s Hinv); exact Hj].
  apply (overlaps_alien_unique s (rockets (game s) !!! i) j k); try assumption.
  apply (inv_rockets s Hinv).
Qed.

Lemma scan_fold_ScanInv (i : nat) (js : list nat) (s : State) :
  ScanInv i s -> Forall (fun j => (j < 50)%nat) js ->
  ScanInv i (foldl (fun s j => check_alien i j s) s js).
Proof.
  revert s. induction js as [| j js IH]; intros s Hs Hjs; [exact Hs |].
  cbn [foldl]. apply Forall_cons in Hjs as [Hj Hjs].
  apply IH; [now apply check_alien_ScanInv | exact Hjs].
Qed.

Lemma seq_below (n : nat) : Forall (fun j => (j < n)%nat) (seq 0 n).
Proof. apply Forall_forall. intros j Hj. apply elem_of_seq in Hj. lia. Qed.

Lemma scan_aliens_ScanInv (i : nat) (s : State) :
  ScanInv i s -> ScanInv i (scan_aliens i s).
Proof.
  intros Hs. unfold scan_aliens. rewrite (inv_hoard s (proj1 Hs)).
  apply scan_fold_ScanInv; [exact Hs | apply (seq_below 50)].
Qed.

(** ** The rocket loop keeps the invariant *)

Lemma check_player_Inv (i : nat) (s s' : State) :
  Inv s -> check_player i s = Running s' -> Inv s'.
Proof.
  intros Hinv. unfold check_player. cbv zeta.
  destruct (sprite_overlap_check _ _ _ _ _ _); [| now intros [= <-]].
  destruct (Z.eqb_spec (u32 (lives (player (game s)) - 1)) 0) as [_ | Hl]; [discriminate |].
  intros [= <-].
  pose proof (inv_player s Hinv) as (_ & _ & Hlives).
  rewrite u32_small in * by lia.
  apply Inv_with_game; try exact Hinv; try (destruct Hinv; assumption); try reflexivity.
  cbn. lia.
Qed.

Lemma remove_rocket_Inv (i : nat) (s : State) (g : Game) :
  Inv (set_game g s) -> 1 <= num_rockets g -> Inv (set_game (remove_rocket i g) s).
Proof.
  intros Hinv Hn. pose proof (inv_num _ Hinv) as Hnum. cbn in Hnum.
  change (set_game (remove_rocket i g) s) with (set_game (remove_rocket i g) (set_game g s)).
  apply Inv_with_game; try exact Hinv; try (destruct Hinv; assumption); try reflexivity.
  - unfold remove_rocket. cbn. rewrite length_insert. apply (inv_rockets_len _ Hinv).
  - unfold remove_rocket. cbn. rewrite u32_small by lia. lia.
  - unfold remove_rocket. cbn [rockets set_num_rockets set_rockets].
    apply rockets_insert_ok; [apply (inv_rockets _ Hinv) |].
    apply rockets_get_ok, (inv_rockets _ Hinv).
Qed.

Lemma rocket_step_Inv (i : nat) (s s' : State) :
  Inv s -> Z.of_nat i < num_rockets (game s) ->
  rocket_step i s = Running s' -> Inv s'.
Proof.
  intros Hinv Hi. unfold rocket_step. cbv zeta.
  set (r' := mkRocket _ _ _).
  set (g1 := set_rockets _ (game s)).
  assert (Hinv1 : Inv (set_game g1 s)).
  { apply Inv_with_game; try exact Hinv; try (destruct Hinv; assumption); try reflexivity.
    - unfold g1. cbn. rewrite length_insert. apply (inv_rockets_len _ Hinv).
    - unfold g1. cbn [rockets set_rockets].
      apply rockets_insert_ok; [apply (inv_rockets _ Hinv) |].
      split; [apply (inv_rockets _ Hinv) | apply u32_range]. }
  destruct (_ || _).
  - intros [= <-]. apply remove_rocket_Inv; [exact Hinv1 |]. unfold g1. cbn. lia.
  - apply check_player_Inv, scan_aliens_ScanInv. split; [exact Hinv1 | left; exact Hi].
Qed.

Lemma rocket_loop_Inv (fuel i : nat) (s s' : State) :
  Inv s -> rocket_loop fuel i s = Running s' -> Inv s'.
Proof.
  revert i s. induction fuel as [| fuel IH]; intros i s Hinv; cbn [rocket_loop].
  - now intros [= <-].
  - destruct (Z.ltb_spec (Z.of_nat i) (num_rockets (game s))) as [Hi | _];
      [| now intros [= <-]].
    destruct (rocket_step i s) as [s1 | |] eqn:Hstep; try discriminate.
    apply IH. now apply (rocket_step_Inv i s).
Qed.

(** The loop leaves by its own test: with the pool within its capacity the
    fuel of the model never runs out before the index passes [num_rockets]. *)
Lemma rocket_loop_fuel (fuel i : nat) (s : State) :
  Inv s -> (128 <= fuel + i)%nat ->
  rocket_loop (S fuel) i s = rocket_loop fuel i s.
Proof.
  revert i s. induction fuel as [| fuel IH]; intros i s Hinv Hf.
  - cbn [rocket_loop]. pose proof (inv_num s Hinv).
    destruct (Z.ltb_spec (Z.of_nat i) (num_rockets (game s))); [lia | reflexivity].
  - change (rocket_loop (S (S fuel)) i s) with
      (if Z.of_nat i <? num_rockets (game s)
       then match rocket_step i s with
            | Running s' => rocket_loop (S fuel) (S i) s'
            | o => o
            end
       else Running s).
    cbn [rocket_loop].
    destruct (Z.ltb_spec (Z.of_nat i) (num_rockets (game s))) as [Hi | _]; [| reflexivity].
    destruct (rocket_step i s) as [s1 | |] eqn:Hstep; try reflexivity.
    apply IH; [now apply (rocket_step_Inv i s) | lia].
Qed.

(** ** The other steps of a tick keep the invariant *)

Lemma handle_alien_death_eq (i : nat) (s : State) :
  handle_alien_death i s =
  set_death_counter
    (<[i := countdown (alien_type (alien_array (game s) !!! i)) (death_counter s !!! i)]>
       (death_counter s)) s.
Proof.
  unfold handle_alien_death, countdown.
  destruct (_ && _); [reflexivity |].
  destruct (decide (i < length (death_counter s))%nat) as [Hi | Hi].
  - rewrite list_insert_id; [now destruct s |].
    now apply list_lookup_lookup_total_lt.
  - rewrite list_insert_ge by lia. now destruct s.
Qed.

Lemma handle_alien_deaths_fold (a n : nat) (s : State) :
  let out := foldl (fun s i => handle_alien_death i s) s (seq a n) in
  game out = game s /\ alien_animation out = alien_animation s /\
  score out = score s /\ aliens_killed out = aliens_killed s /\
  length (death_counter out) = length (death_counter s) /\
  forall k, (k < length (death_counter s))%nat ->
    death_counter out !!! k =
    if decide (a <= k < a + n)%nat
    then countdown (alien_type (alien_array (game s) !!! k)) (death_counter s !!! k)
    else death_counter s !!! k.
Proof.
  revert a s. induction n as [| n IH]; intros a s; cbn [seq foldl].
  - repeat split; try reflexivity. intros k Hk. destruct (decide _); [lia | reflexivity].
  - destruct (IH (S a) (handle_alien_death a s)) as (Eg & Ean & Esc & Ek & El & Ec).
    assert (game (handle_alien_death a s) = game s /\
            alien_animation (handle_alien_death a s) = alien_animation s /\
            score (handle_alien_death a s) = score s /\
            aliens_killed (handle_alien_death a s) = aliens_killed s /\
            death_counter (handle_alien_death a s) =
              <[a := countdown (alien_type (alien_array (game s) !!! a)) (death_counter s !!! a)]>
                (death_counter s)) as (Eg1 & Ean1 & Esc1 & Ek1 & Ed1)
      by (rewrite handle_alien_death_eq; repeat split).
    rewrite Eg1 in Eg, Ec. rewrite Ean1 in Ean. rewrite Esc1 in Esc. rewrite Ek1 in Ek.
    rewrite Ed1, length_insert in El, Ec.
    split; [exact Eg |]. split; [exact Ean |]. split; [exact Esc |]. split; [exact Ek |].
    split; [exact El |].
    intros k Hk. rewrite (Ec k Hk), list_lookup_total_insert.
    destruct (decide (S a <= k < S a + n)%nat), (decide (a <= k < a + S n)%nat),
      (decide (a = k /\ (a < length (death_counter s))%nat)) as [[<- _] | ?];
      try reflexivity; try lia.
Qed.

Lemma handle_alien_deaths_effect (s : State) (k : nat) :
  Inv s -> (k < 50)%nat ->
  game (handle_alien_deaths s) = game s /\
  alien_animation (handle_alien_deaths s) = alien_animation s /\
  score (handle_alien_deaths s) = score s /\
  aliens_killed (handle_alien_deaths s) = aliens_killed s /\
  length (death_counter (handle_alien_deaths s)) = 50%nat /\
  death_counter (handle_alien_deaths s) !!! k =
    countdown (alien_type (alien_array (game s) !!! k)) (death_counter s !!! k).
Proof.
  intros Hinv Hk. unfold handle_alien_deaths. rewrite (inv_hoard s Hinv).
  destruct (handle_alien_deaths_fold 0 50 s) as (Eg & Ean & Esc & Ek & El & Ec).
  change (Z.to_nat 50) with 50%nat.
  split; [exact Eg |]. split; [exact Ean |]. split; [exact Esc |]. split; [exact Ek |].
  split; [rewrite El; apply (inv_counter_len s Hinv) |].
  rewrite Ec by (rewrite (inv_counter_len s Hinv); exact Hk).
  destruct (decide _); [reflexivity | lia].
Qed.

Lemma countdown_ok (k : nat) (a : Alien) (dc : Z) :
  alien_ok k a dc -> alien_ok k a (countdown (alien_type a) dc).
Proof.
  intros (Ey & [(Et & Ex & Ed) | (Et & Ex & Ed)]); unfold countdown.
  - rewrite Et. destruct (formation_type_cases k) as [-> | ->]; cbn; split; auto.
  - rewrite Et. cbn [Z.eqb ALIEN_DEAD andb]. split; [exact Ey |]. right.
    split; [exact Et |]. split; [exact Ex |].
    destruct (Z.eqb_spec dc 0); cbn [negb]; [lia |]. rewrite u8_small; lia.
Qed.

Lemma handle_alien_deaths_Inv (s : State) : Inv s -> Inv (handle_alien_deaths s).
Proof.
  intros Hinv.
  destruct (handle_alien_deaths_effect s 0 Hinv ltac:(lia)) as (Eg & Ean & Esc & Ek & El & _).
  constructor; rewrite ?Eg, ?Ean, ?Esc, ?Ek; try (destruct Hinv; assumption).
  intros k Hk. destruct (handle_alien_deaths_effect s k Hinv Hk) as (_ & _ & _ & _ & _ & ->).
  apply countdown_ok, (inv_aliens s Hinv k Hk).
Qed.

Lemma update_animation_timing_Inv (s : State) : Inv s -> Inv (update_animation_timing s).
Proof.
  intros Hinv. destruct (inv_animation s Hinv) as (t0 & t1 & H0 & H1 & E).
  assert (animation_ok (alien_animation (update_animation_timing s))) as Hok.
  { unfold update_animation_timing. cbn [alien_animation set_alien_animation]. rewrite E.
    cbn [seq foldl]. cbn [lookup_total list_lookup_total insert list_insert].
    unfold advance_animation. cbn [time num_frames frame_duration loop frames].
    change (u32 (2 * 10)) with 20. rewrite !u32_small by lia.
    exists (if t0 + 1 =? 20 then 0 else t0 + 1), (if t1 + 1 =? 20 then 0 else t1 + 1).
    split; [destruct (Z.eqb_spec (t0 + 1) 20); lia |].
    split; [destruct (Z.eqb_spec (t1 + 1) 20); lia |]. reflexivity. }
  destruct Hinv. constructor; try assumption.
Qed.

Lemma move_player_Inv (md : Z) (s : State) :
  Inv s -> Inv (set_game (move_player md (game s)) s).
Proof.
  intros Hinv. pose proof (inv_player s Hinv) as (Hx & Hy & Hl).
  destruct (move_player_clamped md (game s) (inv_width s Hinv) Hx) as (Hr & _).
  destruct (move_player_frame md (game s)) as (Ey & El & Eg).
  rewrite (inv_width s Hinv) in Hr. cbn [sp_width playerSprite] in Hr.
  assert (forall g, set_player (player (game s)) g = game s ->
            height g = height (game s) /\ width g = width (game s) /\
            alien_hoard_size g = alien_hoard_size (game s) /\
            alien_array g = alien_array (game s) /\
            first_line_array g = first_line_array (game s) /\
            rockets g = rockets (game s) /\ num_rockets g = num_rockets (game s) /\
            frame_counter g = frame_counter (game s)) as Hframe.
  { intros g <-. repeat split. }
  destruct (Hframe _ Eg) as (Eh & Ew & Es & Ea & Ef & Er & En & Ec).
  apply Inv_with_game; try exact Hinv; rewrite ?Eh, ?Ew, ?Es, ?Ea, ?Ef, ?Er, ?En, ?Ec, ?Ey, ?El;
    try (destruct Hinv; assumption); try reflexivity.
  lia.
Qed.

Lemma update_first_line_Inv (s : State) :
  Inv s -> Inv (set_game (update_first_line (game s)) s).
Proof.
  intros Hinv. rewrite update_first_line_eq.
  apply Inv_with_game; try exact Hinv; try (destruct Hinv; assumption); try reflexivity.
  cbn [first_line_array set_first_line_array].
  destruct (foldl_insert_lookup (representative (alien_array (game s))) (seq 0 10)
              (first_line_array (game s)) 0) as [-> _];
    rewrite (inv_first_len s Hinv); [lia | reflexivity].
Qed.

Lemma spawn_Inv (s : State) (r : Rocket) :
  Inv s -> num_rockets (game s) < GAME_MAX_ROCKETS -> rocket_ok r ->
  Inv (set_game
         (set_num_rockets (u32 (num_rockets (game s) + 1))
            (set_rockets (<[Z.to_nat (num_rockets (game s)) := r]> (rockets (game s)))
               (game s))) s).
Proof.
  intros Hinv Hn Hr. pose proof (inv_num s Hinv) as Hnum. unfold GAME_MAX_ROCKETS in Hn.
  apply Inv_with_game; try exact Hinv; try (destruct Hinv; assumption); try reflexivity.
  - cbn. rewrite length_insert. apply (inv_rockets_len s Hinv).
  - cbn. rewrite u32_small by lia. lia.
  - cbn [rockets set_num_rockets set_rockets].
    apply rockets_insert_ok; [apply (inv_rockets s Hinv) | exact Hr].
Qed.

Lemma set_frame_counter_Inv (n : Z) (s : State) :
  Inv s -> is_u32 n -> Inv (set_game (set_frame_counter n (game s)) s).
Proof.
  intros Hinv Hn.
  apply Inv_with_game; try exact Hinv; try (destruct Hinv; assumption); try reflexivity.
Qed.

Lemma alien_rocket_ok (a : Alien) : rocket_ok (alien_rocket a).
Proof. split; apply u32_range. Qed.

Lemma player_rocket_ok (p : Player) : rocket_ok (player_rocket p).
Proof. split; apply u32_range. Qed.

Lemma alien_fire_Inv (rv : Z) (s : State) :
  Inv s -> Inv (set_game (alien_fire rv (game s)) s).
Proof.
  intros Hinv. rewrite alien_fire_cases. cbv zeta.
  destruct (_ =? 30); cbn [andb].
  - destruct (Z.ltb_spec (num_rockets (game s)) GAME_MAX_ROCKETS) as [Hn | _].
    + destruct (negb _).
      * pose proof (spawn_Inv s _ Hinv Hn
                      (alien_rocket_ok (arr_get (first_line_array (game s)) (Z.rem rv 10)))) as H.
        apply (set_frame_counter_Inv 0) in H; [exact H | unfold is_u32; lia].
      * apply set_frame_counter_Inv; [exact Hinv | unfold is_u32; lia].
    + apply set_frame_counter_Inv; [exact Hinv | apply u32_range].
  - apply set_frame_counter_Inv; [exact Hinv | apply u32_range].
Qed.

Lemma player_fire_Inv (fired : bool) (s : State) :
  Inv s -> Inv (set_game (player_fire fired (game s)) s).
Proof.
  intros Hinv. unfold player_fire. destruct fired; cbn [andb]; [| now destruct s].
  destruct (Z.ltb_spec (num_rockets (game s)) GAME_MAX_ROCKETS) as [Hn | _]; [| now destruct s].
  apply spawn_Inv; [exact Hinv | exact Hn | apply player_rocket_ok].
Qed.

Lemma Inv_lift (f : Game -> Game) :
  (forall s, Inv s -> Inv (set_game (f (game s)) s)) ->
  forall g s, Inv (set_game g s) -> Inv (set_game (f g) s).
Proof. intros H g s Hinv. exact (H (set_game g s) Hinv). Qed.

Lemma simulate_Inv (inp : Input) (s : State) :
  Inv s -> Inv (set_game (simulate inp (game s)) s).
Proof.
  intros Hinv. unfold simulate.
  apply (Inv_lift (player_fire (rocket_fired inp)) (player_fire_Inv _)).
  apply (Inv_lift (alien_fire (rand_value inp)) (alien_fire_Inv _)).
  apply (Inv_lift update_first_line update_first_line_Inv).
  now apply move_player_Inv.
Qed.

Lemma tick_Inv (inp : Input) (s s' : State) :
  Inv s -> tick inp s = Running s' -> Inv s'.
Proof.
  intros Hinv. unfold tick, resolve_rockets.
  destruct (rocket_loop _ _ _) as [s1 | |] eqn:Hloop; try discriminate.
  destruct (aliens_killed s1 =? 50); [discriminate |].
  intros [= <-]. apply simulate_Inv.
  apply (rocket_loop_Inv _ _ _ _ (handle_alien_deaths_Inv _ (update_animation_timing_Inv _ Hinv))
           Hloop).
Qed.

Lemma run_Inv (inputs : list Input) (s s' : State) :
  Inv s -> run inputs s = Running s' -> Inv s'.
Proof.
  revert s. induction inputs as [| inp inputs IH]; intros s Hinv; cbn [run].
  - now intros [= <-].
  - destruct (tick inp s) as [s1 | |] eqn:Ht; try discriminate.
    apply IH. now apply (tick_Inv inp s).
Qed.

Lemma lookup_total_Forall {A} `{!Inhabited A} (P : A -> Prop) (l : list A) (i : nat) :
  Forall P l -> P inhabitant -> P (l !!! i).
Proof.
  intros Hl Hd. rewrite list_lookup_total_alt.
  destruct (l !! i) as [x |] eqn:E; [| exact Hd].
  cbn. rewrite Forall_forall in Hl. apply Hl. apply list_elem_of_lookup. eauto.
Qed.

Lemma init_state_Inv : Inv init_state.
Proof.
  constructor; try reflexivity.
  - cbn. lia.
  - unfold is_u32. cbn. lia.
  - intros k Hk. cbn [init_state game death_counter init_game alien_array].
    rewrite init_alien_array_closed, init_death_counter_closed.
    rewrite formation_alien_lookup by exact Hk.
    rewrite lookup_total_replicate_2 by exact Hk.
    split; [reflexivity |]. left. repeat split.
  - intros i. apply lookup_total_Forall; [| apply rocket_ok_default].
    apply Forall_replicate, rocket_ok_default.
  - exists 0, 0. repeat split; lia.
  - cbn. lia.
  - cbn. lia.
Qed.

(** ** What the rocket loop does to the horde *)

Lemma only_dies_refl (l : list Alien) : only_dies l l.
Proof. intros k. now left. Qed.

Lemma only_dies_trans (l1 l2 l3 : list Alien) :
  only_dies l1 l2 -> only_dies l2 l3 -> only_dies l1 l3.
Proof.
  intros H12 H23 k. destruct (H12 k) as [E12 | [A1 D2]], (H23 k) as [E23 | [A2 D3]].
  - left. congruence.
  - right. rewrite <- E12. auto.
  - right. rewrite E23. auto.
  - contradiction.
Qed.

Lemma only_dies_dead (l l' : list Alien) (k : nat) :
  only_dies l l' -> alien_type (l !!! k) = ALIEN_DEAD -> l' !!! k = l !!! k.
Proof. intros H Hd. destruct (H k) as [E | [A _]]; [exact E | contradiction]. Qed.

Lemma only_dies_alive (l l' : list Alien) (k : nat) :
  only_dies l l' -> alien_type (l' !!! k) <> ALIEN_DEAD -> l' !!! k = l !!! k.
Proof. intros H Ha. destruct (H k) as [E | [_ D]]; [exact E | contradiction]. Qed.

Lemma check_alien_frame (i j : nat) (s : State) :
  death_counter (check_alien i j s) = death_counter s /\
  alien_animation (check_alien i j s) = alien_animation s /\
  alien_hoard_size (game (check_alien i j s)) = alien_hoard_size (game s) /\
  only_dies (alien_array (game s)) (alien_array (game (check_alien i j s))).
Proof.
  rewrite check_alien_cases. destruct (rocket_hits i j s) eqn:Hhit.
  - apply rocket_hits_true in Hhit as [Halive _].
    split; [reflexivity |]. split; [reflexivity |]. split; [reflexivity |].
    intros k. unfold hit_alien. cbv zeta.
    cbn [game set_game remove_rocket set_num_rockets set_rockets set_alien_array alien_array].
    rewrite list_lookup_total_insert.
    destruct (decide (j = k /\ (j < length (alien_array (game s)))%nat)) as [[<- _] | _];
      [right; split; [exact Halive | reflexivity] | now left].
  - repeat split. apply only_dies_refl.
Qed.

Lemma scan_fold_frame (i : nat) (js : list nat) (s : State) :
  let out := foldl (fun s j => check_alien i j s) s js in
  death_counter out = death_counter s /\
  alien_animation out = alien_animation s /\
  alien_hoard_size (game out) = alien_hoard_size (game s) /\
  only_dies (alien_array (game s)) (alien_array (game out)).
Proof.
  revert s. induction js as [| j js IH]; intros s; cbn [foldl].
  - repeat split. apply only_dies_refl.
  - destruct (IH (check_alien i j s)) as (Ed & Ea & Eh & Ho).
    destruct (check_alien_frame i j s) as (Ed1 & Ea1 & Eh1 & Ho1).
    split; [congruence |]. split; [congruence |]. split; [congruence |].
    now apply (only_dies_trans _ _ _ Ho1).
Qed.

Lemma rocket_step_frame (i : nat) (s s' : State) :
  rocket_step i s = Running s' ->
  death_counter s' = death_counter s /\
  alien_animation s' = alien_animation s /\
  alien_hoard_size (game s') = alien_hoard_size (game s) /\
  only_dies (alien_array (game s)) (alien_array (game s')).
Proof.
  unfold rocket_step. cbv zeta. destruct (_ || _).
  - intros [= <-]. repeat split. apply only_dies_refl.
  - unfold check_player. cbv zeta.
    set (s0 := set_game _ s).
    destruct (scan_fold_frame i (seq 0 (Z.to_nat (alien_hoard_size (game s0)))) s0)
      as (Ed & Ea & Eh & Ho).
    fold (scan_aliens i s0) in Ed, Ea, Eh, Ho.
    change (death_counter s0) with (death_counter s) in Ed.
    change (alien_animation s0) with (alien_animation s) in Ea.
    change (alien_hoard_size (game s0)) with (alien_hoard_size (game s)) in Eh.
    change (alien_array (game s0)) with (alien_array (game s)) in Ho.
    destruct (sprite_overlap_check _ _ _ _ _ _); [| intros [= <-]; auto].
    destruct (_ =? 0); [discriminate |]. intros [= <-]. auto.
Qed.

Lemma rocket_loop_frame (fuel i : nat) (s s' : State) :
  rocket_loop fuel i s = Running s' ->
  death_counter s' = death_counter s /\
  alien_animation s' = alien_animation s /\
  alien_hoard_size (game s') = alien_hoard_size (game s) /\
  only_dies (alien_array (game s)) (alien_array (game s')).
Proof.
  revert i s. induction fuel as [| fuel IH]; intros i s; cbn [rocket_loop].
  - intros [= <-]. repeat split. apply only_dies_refl.
  - destruct (_ <? _); [| intros [= <-]; repeat split; apply only_dies_refl].
    destruct (rocket_step i s) as [s1 | |] eqn:Hstep; try discriminate.
    intros Hloop. destruct (rocket_step_frame i s s1 Hstep) as (Ed1 & Ea1 & Eh1 & Ho1).
    destruct (IH _ _ Hloop) as (Ed & Ea & Eh & Ho).
    split; [congruence |]. split; [congruence |]. split; [congruence |].
    now apply (only_dies_trans _ _ _ Ho1).
Qed.

Lemma move_player_aliens (md : Z) (g : Game) :
  alien_array (move_player md g) = alien_array g.
Proof.
  unfold move_player. cbv zeta.
  destruct (negb _); [| reflexivity].
  destruct (_ >=? _); [reflexivity |].
  destruct (_ <=? _); reflexivity.
Qed.

Lemma update_first_line_aliens (g : Game) :
  alien_array (update_first_line g) = alien_array g.
Proof. rewrite update_first_line_eq. reflexivity. Qed.

Lemma alien_fire_aliens (rv : Z) (g : Game) :
  alien_array (alien_fire rv g) = alien_array g.
Proof.
  rewrite alien_fire_cases. cbv zeta.
  destruct (_ && _); [destruct (negb _) |]; reflexivity.
Qed.

Lemma player_fire_aliens (fired : bool) (g : Game) :
  alien_array (player_fire fired g) = alien_array g.
Proof. unfold player_fire. destruct (_ && _); reflexivity. Qed.

Lemma simulate_aliens (inp : Input) (g : Game) :
  alien_array (simulate inp g) = alien_array g.
Proof.
  unfold simulate.
  rewrite player_fire_aliens, alien_fire_aliens, update_first_line_aliens.
  apply move_player_aliens.
Qed.

(** One tick, seen from slot [k]: the record can only die, and the counter
    takes the step of the death loop on the state the tick started from. *)
Lemma tick_slot (inp : Input) (s s' : State) (k : nat) :
  Inv s -> (k < 50)%nat -> tick inp s = Running s' ->
  only_dies (alien_array (game s)) (alien_array (game s')) /\
  death_counter s' !!! k =
    countdown (alien_type (alien_array (game s) !!! k)) (death_counter s !!! k).
Proof.
  intros Hinv Hk. unfold tick, resolve_rockets.
  destruct (rocket_loop _ _ _) as [s1 | |] eqn:Hloop; try discriminate.
  destruct (aliens_killed s1 =? 50); [discriminate |]. intros [= <-].
  destruct (rocket_loop_frame _ _ _ _ Hloop) as (Ed & _ & _ & Ho).
  pose proof (update_animation_timing_Inv s Hinv) as Hinv1.
  destruct (handle_alien_deaths_effect _ k Hinv1 Hk) as (Eg & _ & _ & _ & _ & Ec).
  rewrite Eg in Ho. cbn [game set_game death_counter].
  rewrite simulate_aliens. split; [exact Ho |]. rewrite Ed, Ec. reflexivity.
Qed.

(** ** Death countdown *)

Lemma countdown_dead (dc : Z) :
  0 <= dc <= 10 -> countdown ALIEN_DEAD dc = Z.max 0 (dc - 1).
Proof.
  intros H. unfold countdown. cbn [Z.eqb ALIEN_DEAD andb].
  destruct (Z.eqb_spec dc 0); cbn [negb]; [lia |]. rewrite u8_small; lia.
Qed.

Lemma countdown_alive (t dc : Z) : t <> ALIEN_DEAD -> countdown t dc = dc.
Proof. intros H. unfold countdown. destruct (Z.eqb_spec t ALIEN_DEAD); [contradiction | reflexivity]. Qed.

Lemma counter_range (s : State) (k : nat) :
  Inv s -> (k < 50)%nat -> 0 <= death_counter s !!! k <= 10.
Proof.
  intros Hinv Hk. destruct (inv_aliens s Hinv k Hk) as (_ & [(_ & _ & ->) | (_ & _ & H)]); lia.
Qed.

Lemma run_dead_slot (inputs : list Input) (s s' : State) (k : nat) :
  Inv s -> (k < 50)%nat ->
  alien_type (alien_array (game s) !!! k) = ALIEN_DEAD ->
  run inputs s = Running s' ->
  alien_array (game s') !!! k = alien_array (game s) !!! k /\
  death_counter s' !!! k = Z.max 0 (death_counter s !!! k - Z.of_nat (length inputs)).
Proof.
  revert s. induction inputs as [| inp inputs IH]; intros s Hinv Hk Hdead; cbn [run length].
  - intros [= <-]. pose proof (counter_range s k Hinv Hk). split; [reflexivity | lia].
  - destruct (tick inp s) as [s1 | |] eqn:Ht; try discriminate. intros Hrun.
    destruct (tick_slot inp s s1 k Hinv Hk Ht) as [Ho Ec].
    pose proof (only_dies_dead _ _ k Ho Hdead) as Ea.
    rewrite Hdead, countdown_dead in Ec by now apply counter_range.
    destruct (IH s1) as [Ea' Ec']; [now apply (tick_Inv inp s) | exact Hk | congruence | exact Hrun |].
    split; [congruence |]. rewrite Ec', Ec. lia.
Qed.

(** C8. When a tick kills the alien of slot [k], the counter of the slot is 10
    after that tick and one less after each further tick until it is 0, where
    it stays; the record of the slot does not change any more; and the state
    selects the death sprite for the slot after the tick of the kill and the
    nine ticks that follow, and no sprite from then on. *)
Theorem death_countdown (inp : Input) (inputs : list Input) (s0 s1 s' : State) (k : nat) :
  Inv s0 -> (k < 50)%nat ->
  alien_type (alien_array (game s0) !!! k) <> ALIEN_DEAD ->
  tick inp s0 = Running s1 ->
  alien_type (alien_array (game s1) !!! k) = ALIEN_DEAD ->
  run inputs s1 = Running s' ->
  death_counter s' !!! k = Z.max 0 (10 - Z.of_nat (length inputs)) /\
  0 <= death_counter s' !!! k /\
  alien_array (game s') !!! k = alien_array (game s1) !!! k /\
  alien_draw_sprite s' k =
    (if Z.of_nat (length inputs) <? 10 then Some alien_death_sprite else None).
Proof.
  intros Hinv Hk Halive Htick Hdead Hrun.
  destruct (tick_slot inp s0 s1 k Hinv Hk Htick) as [_ Ec].
  destruct (alive_alien s0 k Hinv Hk Halive) as [_ E10].
  rewrite countdown_alive, E10 in Ec by exact Halive.
  destruct (run_dead_slot inputs s1 s' k (tick_Inv inp s0 s1 Hinv Htick) Hk Hdead Hrun)
    as [Ea Ed].
  rewrite Ec in Ed.
  split; [exact Ed |]. split; [lia |]. split; [exact Ea |].
  unfold alien_draw_sprite. cbv zeta. rewrite Ea, Hdead, Ed. cbn [Z.eqb ALIEN_DEAD].
  destruct (Z.ltb_spec (Z.of_nat (length inputs)) 10), (Z.eqb_spec (Z.max 0 (10 - Z.of_nat (length inputs))) 0);
    (reflexivity || lia).
Qed.

Lemma aimed_state_Inv : Inv aimed_state.
Proof.
  apply Inv_with_game; try exact init_state_Inv; try reflexivity.
  - cbn. lia.
  - unfold is_u32. cbn. lia.
  - unfold aimed_game. cbn [rockets set_num_rockets set_rockets].
    apply rockets_insert_ok; [apply (inv_rockets _ init_state_Inv) |].
    split; unfold is_u32; cbn; lia.
  - cbn. lia.
Qed.

Lemma death_countdown_witness :
  death_counter four_later !!! 0%nat = 6 /\
  alien_draw_sprite four_later 0 = Some alien_death_sprite.
Proof.
  pose proof (death_countdown idle_input (replicate 4 idle_input)
                aimed_state after_hit four_later 0 aimed_state_Inv) as H.
  destruct H as (Hc & _ & _ & Hd).
  - lia.
  - discriminate.
  - vm_compute. reflexivity.
  - vm_compute. reflexivity.
  - vm_compute. reflexivity.
  - split; [exact Hc | exact Hd].
Defined.

(** ** Resolution of a hit *)

(** C2. When the scan for a rocket finds it overlapping an alien of type [t],
    1 or 2, that is not dead, the step adds [10 * (4 - t)] to the score and 1
    to the kill counter, marks the alien dead, moves its [x] left by half the
    difference of the widths of the death sprite and of its live sprite, and
    takes the rocket out of the pool: the last rocket of the pool moves into
    its slot and [num_rockets] drops by exactly 1. *)
Theorem alien_hit_resolution (i j : nat) (s : State) (t : Z) :
  ScanInv i s -> (j < 50)%nat ->
  alien_type (alien_array (game s) !!! j) = t -> t = 1 \/ t = 2 ->
  sprite_overlap_check rocket_sprite
    (rocket_x (rockets (game s) !!! i)) (rocket_y (rockets (game s) !!! i))
    (animation_sprite (animation_of s t))
    (alien_x (alien_array (game s) !!! j)) (alien_y (alien_array (game s) !!! j)) = true ->
  score (check_alien i j s) = score s + 10 * (4 - t) /\
  aliens_killed (check_alien i j s) = aliens_killed s + 1 /\
  alien_type (alien_array (game (check_alien i j s)) !!! j) = ALIEN_DEAD /\
  alien_x (alien_array (game (check_alien i j s)) !!! j) =
    alien_x (alien_array (game s) !!! j)
    - (sp_width alien_death_sprite - sp_width (animation_sprite (animation_of s t))) / 2 /\
  alien_y (alien_array (game (check_alien i j s)) !!! j) =
    alien_y (alien_array (game s) !!! j) /\
  num_rockets (game (check_alien i j s)) = num_rockets (game s) - 1 /\
  rockets (game (check_alien i j s)) !!! i =
    rockets (game s) !!! Z.to_nat (num_rockets (game s) - 1) /\
  (forall k, k <> j ->
     alien_array (game (check_alien i j s)) !!! k = alien_array (game s) !!! k).
Proof.
  intros [Hinv Hlive] Hj Ht Ht12 Hov.
  assert (Hhit : rocket_hits i j s = true).
  { apply rocket_hits_true. rewrite Ht. split; [| exact Hov].
    unfold ALIEN_DEAD. destruct Ht12; lia. }
  destruct Hlive as [Hi | Hno]; [| rewrite Hno in Hhit by exact Hj; discriminate].
  destruct (hit_alien_effect i j s Hinv Hj Hi Hhit) as (Esc & Ek & Ea & En & Er & _).
  rewrite Ht in Esc, Ea.
  pose proof (inv_aliens_len s Hinv) as Hla. pose proof (inv_rockets_len s Hinv) as Hlr.
  pose proof (inv_num s Hinv) as Hn.
  split; [exact Esc |]. split; [exact Ek |].
  rewrite Ea, Er.
  rewrite !list_lookup_total_insert_eq by lia. cbn [alien_type alien_x alien_y].
  split; [reflexivity |]. split; [reflexivity |]. split; [reflexivity |].
  split; [exact En |]. split; [reflexivity |].
  intros k Hk. now apply list_lookup_total_insert_ne.
Qed.

Lemma aimed_state_ScanInv : ScanInv 0 aimed_state.
Proof. split; [apply aimed_state_Inv | left; cbn; lia]. Qed.

Lemma alien_hit_resolution_witness :
  score (check_alien 0 0 aimed_state) = 30 /\
  aliens_killed (check_alien 0 0 aimed_state) = 1 /\
  alien_array (game (check_alien 0 0 aimed_state)) !!! 0%nat = mkAlien 29 250 0 /\
  num_rockets (game (check_alien 0 0 aimed_state)) = 0.
Proof.
  pose proof (alien_hit_resolution 0 0 aimed_state 1 aimed_state_ScanInv) as H.
  destruct H as (Hs & Hk & _ & _ & _ & Hn & _).
  - lia.
  - reflexivity.
  - now left.
  - reflexivity.
  - split; [exact Hs |]. split; [exact Hk |]. split; [reflexivity | exact Hn].
Defined.

(** ** One alien for each rocket *)

Lemma overlaps_alien_back (s s' : State) (r : Rocket) (k : nat) :
  only_dies (alien_array (game s)) (alien_array (game s')) ->
  alien_animation s' = alien_animation s ->
  overlaps_alien s' r k = true -> overlaps_alien s r k = true.
Proof.
  intros Ho Ean. unfold overlaps_alien. cbv zeta. unfold animation_of. rewrite Ean.
  intros H. pose proof H as H'. apply andb_true_iff in H' as [Ha _].
  apply negb_true_iff, Z.eqb_neq in Ha.
  rewrite <- (only_dies_alive _ _ k Ho Ha). exact H.
Qed.

Lemma scan_log_app (i : nat) (l1 l2 : list nat) (s : State) :
  scan_log i (l1 ++ l2) s
  = scan_log i l1 s ++ scan_log i l2 (foldl (fun s j => check_alien i j s) s l1).
Proof.
  revert s. induction l1 as [| j l1 IH]; intros s; [reflexivity |].
  cbn [app scan_log foldl]. now rewrite IH, app_assoc.
Qed.

Lemma scan_miss (i : nat) (js : list nat) (s : State) :
  (forall k, k ∈ js -> rocket_hits i k s = false) ->
  foldl (fun s j => check_alien i j s) s js = s /\ scan_log i js s = [].
Proof.
  induction js as [| j js IH]; intros Hmiss; [now split |].
  cbn [foldl scan_log]. rewrite check_alien_cases, (Hmiss j) by (apply elem_of_cons; auto).
  apply IH. intros k Hk. apply Hmiss, elem_of_cons. auto.
Qed.

(** Every hit a scan records is a hit on an alien of the formation that was
    alive, and overlapped by the recorded rocket, when the scan began. *)
Lemma scan_log_sound (i : nat) (js : list nat) (s : State) (j : nat) (r : Rocket) :
  ScanInv i s -> Forall (fun j => (j < 50)%nat) js ->
  (j, r) ∈ scan_log i js s ->
  (j < 50)%nat /\ rocket_ok r /\ overlaps_alien s r j = true.
Proof.
  revert s. induction js as [| j0 js IH]; intros s Hs Hjs Hin; cbn [scan_log] in Hin.
  - now apply not_elem_of_nil in Hin.
  - apply Forall_cons in Hjs as [Hj0 Hjs]. apply elem_of_app in Hin as [Hin | Hin].
    + destruct (rocket_hits i j0 s) eqn:Hhit; [| now apply not_elem_of_nil in Hin].
      apply list_elem_of_singleton in Hin. injection Hin as -> ->.
      split; [exact Hj0 |]. split; [apply (inv_rockets s (proj1 Hs)) | exact Hhit].
    + destruct (IH (check_alien i j0 s)) as (Hj & Hr & Ho);
        [now apply check_alien_ScanInv | exact Hjs | exact Hin |].
      destruct (check_alien_frame i j0 s) as (_ & Ean & _ & Hd).
      split; [exact Hj |]. split; [exact Hr |].
      now apply (overlaps_alien_back s (check_alien i j0 s)).
Qed.

Lemma seq_split (j n : nat) :
  (j < n)%nat -> seq 0 n = seq 0 j ++ j :: seq (S j) (n - S j).
Proof.
  intros H. replace n with (j + S (n - S j))%nat at 1 by lia.
  rewrite seq_app. reflexivity.
Qed.

(** C1. In a scan of the horde for the rocket of a live slot, no rocket
    record hits two aliens; an alien a rocket hits is the first, and indeed
    the only, alien alive at the start of the scan whose box the rocket
    overlaps; and the rocket the scan starts with does hit the alien it
    overlaps: that hit is the first of the scan and leaves the alien dead. *)
Theorem one_alien_per_rocket (i : nat) (s : State) :
  Inv s -> Z.of_nat i < num_rockets (game s) ->
  (forall j1 j2 r,
     (j1, r) ∈ scan_log i (seq 0 (Z.to_nat (alien_hoard_size (game s)))) s ->
     (j2, r) ∈ scan_log i (seq 0 (Z.to_nat (alien_hoard_size (game s)))) s ->
     j1 = j2) /\
  (forall j r,
     (j, r) ∈ scan_log i (seq 0 (Z.to_nat (alien_hoard_size (game s)))) s ->
     overlaps_alien s r j = true /\
     forall k, (k < 50)%nat -> overlaps_alien s r k = true -> k = j) /\
  (forall j, (j < 50)%nat -> rocket_hits i j s = true ->
     scan_log i (seq 0 (Z.to_nat (alien_hoard_size (game s)))) s !! 0%nat
       = Some (j, rockets (game s) !!! i) /\
     alien_type (alien_array (game (scan_aliens i s)) !!! j) = ALIEN_DEAD).
Proof.
  intros Hinv Hi.
  assert (Hs : ScanInv i s) by (split; [exact Hinv | now left]).
  unfold scan_aliens. rewrite (inv_hoard s Hinv). change (Z.to_nat 50) with 50%nat.
  split; [| split].
  - intros j1 j2 r H1 H2.
    destruct (scan_log_sound i _ s j1 r Hs (seq_below 50) H1) as (Hj1 & Hr & O1).
    destruct (scan_log_sound i _ s j2 r Hs (seq_below 50) H2) as (Hj2 & _ & O2).
    now apply (overlaps_alien_unique s r).
  - intros j r H.
    destruct (scan_log_sound i _ s j r Hs (seq_below 50) H) as (Hj & Hr & Ho).
    split; [exact Ho |]. intros k Hk Hok. now apply (overlaps_alien_unique s r).
  - intros j Hj Hhit.
    assert (Hmiss : forall k, k ∈ seq 0 j -> rocket_hits i k s = false).
    { intros k Hk. apply elem_of_seq in Hk. apply not_true_is_false. intros Hk'.
      assert (k = j); [| lia].
      apply (overlaps_alien_unique s (rockets (game s) !!! i)); try assumption; try lia.
      apply (inv_rockets s Hinv). }
    destruct (scan_miss i (seq 0 j) s Hmiss) as [Efold Elog].
    rewrite (seq_split j 50 Hj), scan_log_app, foldl_app, Elog, Efold.
    cbn [app scan_log foldl]. rewrite Hhit. split; [reflexivity |].
    destruct (scan_fold_frame i (seq (S j) (50 - S j)) (check_alien i j s)) as (_ & _ & _ & Ho).
    destruct (hit_alien_effect i j s Hinv Hj Hi Hhit) as (_ & _ & Ea & _).
    assert (Hd : alien_type (alien_array (game (check_alien i j s)) !!! j) = ALIEN_DEAD).
    { rewrite Ea, list_lookup_total_insert_eq by (rewrite (inv_aliens_len s Hinv); exact Hj).
      reflexivity. }
    rewrite (only_dies_dead _ _ j Ho Hd). exact Hd.
Qed.

Lemma one_alien_per_rocket_witness :
  scan_log 0 (seq 0 50) aimed_state !! 0%nat = Some (0%nat, mkRocket 35 248 3) /\
  alien_type (alien_array (game (scan_aliens 0 aimed_state)) !!! 0%nat) = ALIEN_DEAD /\
  (forall j r, (j, r) ∈ scan_log 0 (seq 0 50) aimed_state ->
     overlaps_alien aimed_state r j = true).
Proof.
  pose proof (one_alien_per_rocket 0 aimed_state aimed_state_Inv) as H.
  destruct H as (_ & Honly & Hfirst).
  - cbn. lia.
  - destruct (Hfirst 0%nat) as [Hhead Hdead]; [lia | reflexivity |].
    split; [exact Hhead |]. split; [exact Hdead |].
    intros j r Hin. now apply Honly.
Defined.

(** The spacing of the formation is what the property rests on: the scan does
    not stop at a hit, so with two aliens on one spot and the rocket in the last
    slot of the pool the same rocket record hits both. *)
Lemma scan_goes_on_after_hit :
  scan_log 0 (seq 0 50) crowded_state
  = [(0%nat, mkRocket 35 248 3); (1%nat, mkRocket 35 248 3)].
Proof. vm_compute. reflexivity. Qed.

(** * Further properties of the program *)

(** ** Clearing the buffer *)

Lemma fill_prefix (color : Z) (m : nat) (d : list Z) :
  (m <= length d)%nat ->
  foldl (fun d i => <[i := color]> d) d (seq 0 m) = replicate m color ++ drop m d.
Proof.
  induction m as [| m IH]; intros Hm; [reflexivity |].
  rewrite seq_S, foldl_snoc, IH by lia. cbn [Nat.add].
  destruct (lookup_lt_is_Some_2 d m ltac:(lia)) as [e He].
  rewrite (drop_S d e m He).
  rewrite insert_app_r_alt by (rewrite length_replicate; lia).
  rewrite length_replicate, Nat.sub_diag. cbn [insert list_insert].
  replace (S m) with (m + 1)%nat by lia. rewrite replicate_add, <- app_assoc. reflexivity.
Qed.

Lemma clear_buffer_closed (buffer : Buffer) (color : Z) :
  buffer_wf buffer ->
  clear_buffer buffer color =
  mkBuffer (buf_width buffer) (buf_height buffer)
    (replicate (Z.to_nat (buf_width buffer * buf_height buffer)) color).
Proof.
  intros (Hw & Hh & Hsz & Hlen). unfold clear_buffer.
  rewrite u32_small by nia. rewrite fill_prefix by lia.
  rewrite <- Hlen, drop_all, app_nil_r. reflexivity.
Qed.

Lemma replicate_pixel (w h color px py : Z) :
  0 <= px < w -> 0 <= py < h ->
  pixel (mkBuffer w h (replicate (Z.to_nat (w * h)) color)) px py = color.
Proof.
  intros Hx Hy. pose proof (cell_index_bound w h px py Hx Hy) as Hi.
  unfold pixel. cbn [buf_data buf_width].
  rewrite arr_get_Z by (rewrite length_replicate; lia).
  apply lookup_total_replicate_2. lia.
Qed.

(** X1. [clear_buffer] keeps the size of a well-formed buffer, leaves every
    pixel of the field at [color], and forgets what the buffer held: clearing
    a cleared buffer gives what one clearing with the last colour gives, so
    two clearings with the same colour are one. *)
Theorem clear_buffer_fills (buffer : Buffer) (color color' px py : Z) :
  buffer_wf buffer -> 0 <= px < buf_width buffer -> 0 <= py < buf_height buffer ->
  buffer_wf (clear_buffer buffer color) /\
  buf_width (clear_buffer buffer color) = buf_width buffer /\
  buf_height (clear_buffer buffer color) = buf_height buffer /\
  pixel (clear_buffer buffer color) px py = color /\
  clear_buffer (clear_buffer buffer color') color = clear_buffer buffer color.
Proof.
  intros Hwf Hx Hy.
  assert (Hwf' : forall c, buffer_wf (clear_buffer buffer c)).
  { intros c. rewrite clear_buffer_closed by exact Hwf.
    destruct Hwf as (Hw & Hh & Hsz & _). repeat split; try assumption.
    cbn. apply length_replicate. }
  split; [apply Hwf' |]. split; [reflexivity |]. split; [reflexivity |]. split.
  - rewrite clear_buffer_closed by exact Hwf. now apply replicate_pixel.
  - rewrite (clear_buffer_closed (clear_buffer buffer color')) by apply Hwf'.
    rewrite (clear_buffer_closed buffer color) by exact Hwf. reflexivity.
Qed.

Lemma clear_buffer_fills_witness :
  pixel (clear_buffer small_buffer 5) 2 1 = 5 /\
  clear_buffer (clear_buffer small_buffer 9) 5 = clear_buffer small_buffer 5.
Proof.
  pose proof (clear_buffer_fills small_buffer 5 9 2 1) as (_ & _ & _ & Hp & Hi).
  { unfold buffer_wf; simpl; lia. } { simpl; lia. } { simpl; lia. }
  split; [exact Hp | exact Hi].
Defined.

(** ** Packing a colour *)

Lemma u32_lor (x y : Z) : u32 (Z.lor x y) = Z.lor (u32 x) (u32 y).
Proof. unfold u32. rewrite <- !Z.land_ones by lia. apply Z.land_lor_distr_l. Qed.

Lemma u32_s32 (z : Z) : u32 (s32 z) = u32 z.
Proof. machine_lia. Qed.

Lemma land_shifted_low (hi lo k : Z) :
  0 <= k -> 0 <= lo < 2 ^ k -> Z.land (hi * 2 ^ k) lo = 0.
Proof.
  intros Hk Hlo. apply Z.bits_inj'. intros n Hn.
  rewrite Z.land_spec, Z.bits_0, <- Z.shiftl_mul_pow2 by exact Hk.
  destruct (Z.lt_ge_cases n k) as [Hlt | Hge].
  - now rewrite Z.shiftl_spec_low.
  - destruct (Z.eq_dec lo 0) as [-> | Hne]; [now rewrite Z.bits_0, andb_false_r |].
    rewrite (Z.bits_above_log2 lo n), andb_false_r; [reflexivity | lia |].
    assert (Z.log2 lo < k) by (apply Z.log2_lt_pow2; lia). lia.
Qed.

Lemma lor_shifted_low (hi lo k : Z) :
  0 <= k -> 0 <= lo < 2 ^ k -> Z.lor (hi * 2 ^ k) lo = hi * 2 ^ k + lo.
Proof.
  intros Hk Hlo. pose proof (land_shifted_low hi lo k Hk Hlo) as H.
  rewrite <- Z.lxor_lor by exact H. symmetry. now apply Z.add_nocarry_lxor.
Qed.

Lemma rgb_to_uint32_sum (r g b : Z) :
  0 <= r < 256 -> 0 <= g < 256 -> 0 <= b < 256 ->
  rgb_to_uint32 r g b = r * 2 ^ 24 + g * 2 ^ 16 + b * 2 ^ 8 + 225.
Proof.
  intros Hr Hg Hb. unfold rgb_to_uint32.
  rewrite !u32_lor, u32_s32, !Z.shiftl_mul_pow2 by lia.
  rewrite !u32_small by lia.
  rewrite (lor_shifted_low r (g * 2 ^ 16) 24) by lia.
  replace (r * 2 ^ 24 + g * 2 ^ 16) with ((r * 2 ^ 8 + g) * 2 ^ 16) by lia.
  rewrite (lor_shifted_low _ (b * 2 ^ 8) 16) by lia.
  replace ((r * 2 ^ 8 + g) * 2 ^ 16 + b * 2 ^ 8) with ((r * 2 ^ 16 + g * 2 ^ 8 + b) * 2 ^ 8)
    by lia.
  rewrite (lor_shifted_low _ 225 8) by lia. lia.
Qed.

(** X2. For channel values below 256, [rgb_to_uint32] places red, green and
    blue in the three high bytes of the word and 225 in the low byte, so the
    three channels can be read back from the packed value. *)
Theorem rgb_to_uint32_channels (r g b : Z) :
  0 <= r < 256 -> 0 <= g < 256 -> 0 <= b < 256 ->
  is_u32 (rgb_to_uint32 r g b) /\
  rgb_to_uint32 r g b / 2 ^ 24 = r /\
  (rgb_to_uint32 r g b / 2 ^ 16) mod 256 = g /\
  (rgb_to_uint32 r g b / 2 ^ 8) mod 256 = b /\
  rgb_to_uint32 r g b mod 256 = 225.
Proof.
  intros Hr Hg Hb. rewrite rgb_to_uint32_sum by assumption.
  unfold is_u32.
  change (2 ^ 32) with 4294967296. change (2 ^ 24) with 16777216.
  change (2 ^ 16) with 65536. change (2 ^ 8) with 256.
  repeat split; Z.div_mod_to_equations; lia.
Qed.

Lemma rgb_to_uint32_channels_witness :
  rgb_to_uint32 128 0 255 / 2 ^ 24 = 128 /\
  (rgb_to_uint32 128 0 255 / 2 ^ 8) mod 256 = 255.
Proof.
  pose proof (rgb_to_uint32_channels 128 0 255 ltac:(lia) ltac:(lia) ltac:(lia))
    as (_ & Hr & _ & Hb & _).
  split; [exact Hr | exact Hb].
Defined.

(** ** Animation clocks *)

Lemma advance_animation_time (a : SpriteAnimation) :
  0 < num_frames a * frame_duration a < 2 ^ 32 ->
  0 <= time a < num_frames a * frame_duration a ->
  time (advance_animation a) = (time a + 1) mod (num_frames a * frame_duration a) /\
  num_frames (advance_animation a) = num_frames a /\
  frame_duration (advance_animation a) = frame_duration a /\
  frames (advance_animation a) = frames a /\
  loop (advance_animation a) = loop a.
Proof.
  intros Hp Ht. unfold advance_animation. cbn [time num_frames frame_duration frames loop].
  split; [| repeat split].
  rewrite !u32_small by lia.
  destruct (Z.eqb_spec (time a + 1) (num_frames a * frame_duration a)) as [E | N].
  - rewrite E, Z.mod_same by lia. reflexivity.
  - rewrite Z.mod_small by lia. reflexivity.
Qed.

Lemma advance_n_time (n : nat) (a : SpriteAnimation) :
  0 < num_frames a * frame_duration a < 2 ^ 32 ->
  0 <= time a < num_frames a * frame_duration a ->
  time (advance_n n a) = (time a + Z.of_nat n) mod (num_frames a * frame_duration a) /\
  num_frames (advance_n n a) = num_frames a /\
  frame_duration (advance_n n a) = frame_duration a /\
  frames (advance_n n a) = frames a.
Proof.
  revert a. induction n as [| n IH]; intros a Hp Ht; cbn [advance_n].
  - rewrite Z.add_0_r, Z.mod_small by lia. repeat split.
  - destruct (advance_animation_time a Hp Ht) as (Et & En & Ed & Ef & _).
    destruct (IH (advance_animation a)) as (Et' & En' & Ed' & Ef').
    + now rewrite En, Ed.
    + rewrite Et, En, Ed. apply Z.mod_pos_bound. lia.
    + rewrite En, Ed in *. rewrite Et', En', Ed', Ef', Et.
      split; [| repeat split; assumption].
      rewrite Zplus_mod_idemp_l. f_equal. lia.
Qed.

(** X3. The timing update is a clock of period
    [num_frames * frame_duration]: it keeps [time] below the period, so the
    frame index [time / frame_duration] stays below [num_frames], and after
    exactly one period of updates [time] is back where it was. *)
Theorem animation_clock_period (a : SpriteAnimation) (n : nat) :
  0 < frame_duration a -> 0 < num_frames a ->
  num_frames a * frame_duration a < 2 ^ 32 ->
  0 <= time a < num_frames a * frame_duration a ->
  0 <= time (advance_n n a) < num_frames a * frame_duration a /\
  0 <= time (advance_n n a) / frame_duration a < num_frames a /\
  time (advance_n (Z.to_nat (num_frames a * frame_duration a)) a) = time a /\
  (time a = 0 -> time (advance_n (Z.to_nat (num_frames a * frame_duration a)) a) = 0).
Proof.
  intros Hd Hn Hp Ht.
  assert (Hpos : 0 < num_frames a * frame_duration a < 2 ^ 32) by nia.
  destruct (advance_n_time n a Hpos Ht) as (Et & _).
  destruct (advance_n_time (Z.to_nat (num_frames a * frame_duration a)) a Hpos Ht) as (Ep & _).
  assert (Hr : 0 <= time (advance_n n a) < num_frames a * frame_duration a).
  { rewrite Et. apply Z.mod_pos_bound. lia. }
  assert (Hback : time (advance_n (Z.to_nat (num_frames a * frame_duration a)) a) = time a).
  { rewrite Ep, Z2Nat.id by lia.
    rewrite <- (Z.mul_1_l (num_frames a * frame_duration a)) at 1.
    rewrite Z.mod_add by lia. apply Z.mod_small. exact Ht. }
  split; [exact Hr |]. split.
  - split; [apply Z.div_pos; lia |].
    apply Z.div_lt_upper_bound; [lia |]. lia.
  - split; [exact Hback |]. intros E0. now rewrite Hback.
Qed.

Lemma animation_clock_period_witness :
  time (advance_n 20 (init_alien_animation !!! 0%nat)) = 0 /\
  0 <= time (advance_n 13 (init_alien_animation !!! 0%nat)) / 10 < 2.
Proof.
  pose proof (animation_clock_period (init_alien_animation !!! 0%nat) 13) as (_ & Hf & Hp & _);
    [cbn; lia | cbn; lia | cbn; lia | cbn; lia |].
  split; [exact Hp | exact Hf].
Defined.

(** ** Keyboard input *)

Module KeyboardFacts.
Import Keyboard.

Lemma s32_inc_dec (z : Z) : - 2 ^ 31 <= z < 2 ^ 31 - 1 -> s32 (s32 (z + 1) - 1) = z.
Proof. intros H. rewrite (s32_small (z + 1)) by lia. rewrite s32_small; lia. Qed.

Lemma s32_dec_inc (z : Z) : - 2 ^ 31 < z < 2 ^ 31 -> s32 (s32 (z - 1) + 1) = z.
Proof. intros H. rewrite (s32_small (z - 1)) by lia. rewrite s32_small; lia. Qed.

(** X4. Pressing and then releasing an arrow key leaves the three variables
    as they were, and so does pressing both arrow keys, in either order: the
    accumulator [move_dir] goes up and down by one and comes back. *)
Theorem arrow_keys_cancel (w : Latch) :
  - 2 ^ 31 < move_dir w < 2 ^ 31 - 1 ->
  key_callback KEY_RIGHT RELEASE (key_callback KEY_RIGHT PRESS w) = w /\
  key_callback KEY_LEFT RELEASE (key_callback KEY_LEFT PRESS w) = w /\
  key_callback KEY_LEFT PRESS (key_callback KEY_RIGHT PRESS w) = w /\
  key_callback KEY_RIGHT PRESS (key_callback KEY_LEFT PRESS w) = w /\
  move_dir (key_callback KEY_RIGHT PRESS w) = move_dir w + 1 /\
  move_dir (key_callback KEY_LEFT PRESS w) = move_dir w - 1.
Proof.
  intros H. destruct w as [run md fired]. cbn [move_dir] in H.
  unfold key_callback. cbn [game_running move_dir rocket_fired].
  rewrite s32_inc_dec, s32_dec_inc by lia.
  rewrite (s32_small (md + 1)), (s32_small (md - 1)) by lia.
  repeat split.
Qed.

Lemma arrow_keys_cancel_witness :
  key_callback KEY_RIGHT RELEASE (key_callback KEY_RIGHT PRESS (mkLatch true 0 false))
  = mkLatch true 0 false /\
  move_dir (key_callback KEY_LEFT PRESS (mkLatch true 0 false)) = -1.
Proof.
  pose proof (arrow_keys_cancel (mkLatch true 0 false) ltac:(cbn; lia))
    as (Hr & _ & _ & _ & _ & Hl).
  split; [exact Hr | exact Hl].
Defined.

Lemma key_callback_latches (key : Key) (action : Action) (w : Latch) :
  (rocket_fired w = true -> rocket_fired (key_callback key action w) = true) /\
  (game_running w = false -> game_running (key_callback key action w) = false).
Proof. destruct key, action; cbn; auto. Qed.

(** X5. No key event takes back a latched fire request or restarts a stopped
    game: through any sequence of events [rocket_fired] stays true once it is
    true and [game_running] stays false once it is false; and a key repeat, or
    an event of a key the switch does not name, changes nothing. *)
Theorem poll_latches (events : list (Key * Action)) (w : Latch) :
  (rocket_fired w = true -> rocket_fired (poll events w) = true) /\
  (game_running w = false -> game_running (poll events w) = false) /\
  (forall key, key_callback key REPEAT w = w) /\
  (forall action, key_callback KEY_OTHER action w = w).
Proof.
  split; [| split; [| split]].
  - revert w. induction events as [| [key action] events IH]; intros w Hw; [exact Hw |].
    cbn [poll foldl fst snd]. apply IH. now apply key_callback_latches.
  - revert w. induction events as [| [key action] events IH]; intros w Hw; [exact Hw |].
    cbn [poll foldl fst snd]. apply IH. now apply key_callback_latches.
  - intros key. destruct key; reflexivity.
  - intros action. reflexivity.
Qed.

End KeyboardFacts.

(** ** Blits that fall outside the buffer *)

Lemma foldl_fixed {A B} (f : A -> B -> A) (a : A) (l : list B) :
  (forall x, x ∈ l -> f a x = a) -> foldl f a l = a.
Proof.
  induction l as [| x l IH]; intros H; [reflexivity |].
  cbn [foldl]. rewrite (H x) by (apply elem_of_cons; auto).
  apply IH. intros y Hy. apply H, elem_of_cons. auto.
Qed.

(** X6. A sprite anchored beyond the right or the upper edge of the buffer
    (and not so far that its coordinates wrap), an empty sprite, and a sprite
    drawn into an empty buffer all leave the buffer exactly as it was. *)
Theorem DrawSprite_offscreen (buffer : Buffer) (sprite : Sprite) (x y color : Z) :
  (buf_width buffer <= x /\ x + sp_width sprite <= 2 ^ 32) \/
  (buf_height buffer <= y /\ 0 <= y + sp_height sprite <= 2 ^ 32) \/
  sp_width sprite <= 0 \/ sp_height sprite <= 0 \/
  buf_width buffer <= 0 \/ buf_height buffer <= 0 ->
  0 <= x -> 0 <= y ->
  DrawSprite buffer sprite x y color = buffer.
Proof.
  intros Hout Hx Hy. unfold DrawSprite. apply foldl_fixed. intros i Hi.
  apply elem_of_seq in Hi. unfold draw_column. apply foldl_fixed. intros j Hj.
  apply elem_of_seq in Hj. unfold draw_pixel. cbv zeta.
  pose proof (u32_range (x + Z.of_nat i)) as Hxr.
  pose proof (u32_range (sp_height sprite - 1 + y - Z.of_nat j)) as Hyr.
  unfold is_u32 in Hxr, Hyr.
  destruct (mask_bit sprite (Z.of_nat i) (Z.of_nat j)); cbn [andb]; [| reflexivity].
  destruct (Z.ltb_spec (u32 (sp_height sprite - 1 + y - Z.of_nat j)) (buf_height buffer))
    as [Hyb | _]; cbn [andb]; [| reflexivity].
  destruct (Z.ltb_spec (u32 (x + Z.of_nat i)) (buf_width buffer)) as [Hxb | _];
    [| reflexivity].
  exfalso. destruct Hout as [[Hw Hfit] | [[Hh Hfit] | [Hw | [Hh | [Hb | Hb]]]]]; try lia.
  - rewrite u32_small in Hxb by lia. lia.
  - rewrite u32_small in Hyb by lia. lia.
Qed.

Lemma DrawSprite_offscreen_witness :
  DrawSprite small_buffer rocket_sprite 3 0 7 = small_buffer /\
  DrawSprite small_buffer rocket_sprite 0 2 7 = small_buffer.
Proof.
  split.
  - apply (DrawSprite_offscreen small_buffer rocket_sprite 3 0 7); [left; cbn; lia | lia | lia].
  - apply (DrawSprite_offscreen small_buffer rocket_sprite 0 2 7);
      [right; left; cbn; lia | lia | lia].
Defined.

(** ** Text *)

Lemma DrawSprite_get (buffer : Buffer) (sprite : Sprite) (x y color px py : Z) :
  buffer_wf buffer -> 0 <= px < buf_width buffer -> 0 <= py < buf_height buffer ->
  buffer_wf (DrawSprite buffer sprite x y color) /\
  buf_width (DrawSprite buffer sprite x y color) = buf_width buffer /\
  buf_height (DrawSprite buffer sprite x y color) = buf_height buffer /\
  (covers sprite x y px py -> pixel (DrawSprite buffer sprite x y color) px py = color) /\
  (~ covers sprite x y px py ->
   pixel (DrawSprite buffer sprite x y color) px py = pixel buffer px py).
Proof.
  intros Hwf Hpx Hpy.
  destruct (draw_columns_get sprite x y color px py (seq 0 (Z.to_nat (sp_width sprite)))
              buffer Hwf Hpx Hpy) as (Hwf' & Ew & Eh & _ & Eg).
  fold (DrawSprite buffer sprite x y color) in *.
  split; [exact Hwf' |]. split; [exact Ew |]. split; [exact Eh |]. split.
  - intros Hc. apply covers_iff_lands in Hc. now rewrite Eg, Hc.
  - intros Hc. rewrite Eg. destruct (existsb _ _) eqn:E; [| reflexivity].
    exfalso. apply Hc. now apply covers_iff_lands.
Qed.

Lemma s8_small (z : Z) : - 2 ^ 7 <= z < 2 ^ 7 -> s8 z = z.
Proof. intros H. unfold s8. rewrite Z.mod_small; lia. Qed.

Lemma draw_text_skip (buffer : Buffer) (sheet : Sprite) (c : Z) (rest : list Z)
    (xp y color : Z) :
  - 128 <= c < 128 -> c <> 0 -> printable c = false ->
  draw_text buffer sheet (c :: rest) xp y color = draw_text buffer sheet rest xp y color.
Proof.
  intros Hc Hnz Hp. cbn [draw_text].
  destruct (Z.eqb_spec c 0); [contradiction |]. cbv zeta.
  assert ((s8 (c - 32) <? 0) || (s8 (c - 32) >=? 65) = true) as ->; [| reflexivity].
  unfold printable in Hp. apply andb_false_iff in Hp.
  apply orb_true_iff. rewrite Z.ltb_lt, Z.geb_le.
  unfold s8. change (2 ^ 7) with 128. change (2 ^ 8) with 256.
  destruct Hp as [Hp | Hp]; [apply Z.leb_gt in Hp | apply Z.ltb_ge in Hp];
    Z.div_mod_to_equations; lia.
Qed.

Lemma draw_text_print (buffer : Buffer) (sheet : Sprite) (c : Z) (rest : list Z)
    (xp y color : Z) :
  printable c = true ->
  draw_text buffer sheet (c :: rest) xp y color =
  draw_text (DrawSprite buffer (glyph sheet (c - 32)) xp y color) sheet rest
    (u32 (xp + sp_width sheet + 1)) y color.
Proof.
  intros Hp. unfold printable in Hp. apply andb_true_iff in Hp as [Hlo Hhi].
  apply Z.leb_le in Hlo. apply Z.ltb_lt in Hhi. cbn [draw_text].
  destruct (Z.eqb_spec c 0); [lia |]. cbv zeta.
  rewrite s8_small by (change (2 ^ 7) with 128; lia).
  destruct (Z.ltb_spec (c - 32) 0); [lia |].
  destruct (Z.geb_spec (c - 32) 65); [lia | reflexivity].
Qed.

(** X7. [DrawBufferText] draws only the characters with codes 32 to 96, those
    the sheet has glyphs for: a text made of other characters, lower-case
    letters among them, leaves the buffer as it was, and such characters
    inside a text neither draw nor move the pen. *)
Theorem DrawBufferText_skips (buffer : Buffer) (sheet : Sprite)
    (before skipped after : list Z) (x y color : Z) :
  Forall (fun c => - 128 <= c < 128 /\ c <> 0 /\ printable c = false) skipped ->
  Forall (fun c => c <> 0) before ->
  DrawBufferText buffer sheet skipped x y color = buffer /\
  DrawBufferText buffer sheet (before ++ skipped ++ after) x y color
  = DrawBufferText buffer sheet (before ++ after) x y color.
Proof.
  intros Hs Hb. unfold DrawBufferText.
  assert (Hskip : forall b rest xp,
            draw_text b sheet (skipped ++ rest) xp y color = draw_text b sheet rest xp y color).
  { intros b rest xp. induction Hs as [| c skipped Hc _ IH]; [reflexivity |].
    destruct Hc as (Hc & Hnz & Hp). cbn [app]. now rewrite draw_text_skip. }
  split.
  - rewrite <- (app_nil_r skipped) at 1. apply Hskip.
  - revert buffer x. induction Hb as [| c before Hnz _ IH]; intros buffer x; cbn [app].
    + apply Hskip.
    + cbn [draw_text]. destruct (Z.eqb_spec c 0); [contradiction |]. cbv zeta.
      destruct (_ || _); apply IH.
Qed.

Lemma DrawBufferText_skips_witness :
  DrawBufferText small_buffer rocket_sprite [97; 122; 10] 0 0 7 = small_buffer.
Proof.
  apply (DrawBufferText_skips small_buffer rocket_sprite [] [97; 122; 10] [] 0 0 7).
  - repeat constructor; try lia; discriminate.
  - constructor.
Defined.

Section TextLayout.
Variables (sheet : Sprite) (y color px py : Z).
Hypothesis Hwidth : 0 <= sp_width sheet.

Lemma draw_text_layout (text : list Z) (buffer : Buffer) (x : Z) :
  buffer_wf buffer -> 0 <= px < buf_width buffer -> 0 <= py < buf_height buffer ->
  Forall (fun c => printable c = true) text ->
  0 <= x -> x + Z.of_nat (length text) * (sp_width sheet + 1) < 2 ^ 32 ->
  buffer_wf (draw_text buffer sheet text x y color) /\
  buf_width (draw_text buffer sheet text x y color) = buf_width buffer /\
  buf_height (draw_text buffer sheet text x y color) = buf_height buffer /\
  (pixel buffer px py = color \/
   (exists k c, text !! k = Some c /\
      covers (glyph sheet (c - 32)) (x + Z.of_nat k * (sp_width sheet + 1)) y px py) ->
   pixel (draw_text buffer sheet text x y color) px py = color) /\
  ((forall k c, text !! k = Some c ->
      ~ covers (glyph sheet (c - 32)) (x + Z.of_nat k * (sp_width sheet + 1)) y px py) ->
   pixel (draw_text buffer sheet text x y color) px py = pixel buffer px py).
Proof.
  intros Hwf Hpx Hpy Hp. revert buffer x Hwf Hpx Hpy.
  induction Hp as [| c text Hc _ IH]; intros buffer x Hwf Hpx Hpy Hx Hfit.
  - cbn [draw_text]. split; [exact Hwf |]. split; [reflexivity |]. split; [reflexivity |].
    split; [| reflexivity].
    intros [Hc | (k & c & Hk & _)]; [exact Hc | discriminate Hk].
  - rewrite draw_text_print by exact Hc. cbn [length] in Hfit.
    assert (Hrest : 0 <= Z.of_nat (length text) * (sp_width sheet + 1)) by nia.
    replace (Z.of_nat (S (length text)) * (sp_width sheet + 1))
      with (sp_width sheet + 1 + Z.of_nat (length text) * (sp_width sheet + 1)) in Hfit by lia.
    destruct (DrawSprite_get buffer (glyph sheet (c - 32)) x y color px py Hwf Hpx Hpy)
      as (Hwf1 & Ew1 & Eh1 & Hin1 & Hout1).
    assert (Ex : u32 (x + sp_width sheet + 1) = x + (sp_width sheet + 1)).
    { replace (x + sp_width sheet + 1) with (x + (sp_width sheet + 1)) by lia.
      apply u32_small. lia. }
    rewrite Ex.
    destruct (IH (DrawSprite buffer (glyph sheet (c - 32)) x y color) (x + (sp_width sheet + 1)))
      as (Hwf2 & Ew2 & Eh2 & Hin2 & Hout2);
      [exact Hwf1 | lia | lia | lia | lia |].
    split; [exact Hwf2 |]. split; [congruence |]. split; [congruence |]. split.
    + intros Hcase. apply Hin2.
      assert (Hdec : covers (glyph sheet (c - 32)) x y px py \/
                     ~ covers (glyph sheet (c - 32)) x y px py).
      { destruct (existsb (fun i => existsb (lands (glyph sheet (c - 32)) x y px py i)
                     (seq 0 (Z.to_nat (sp_height (glyph sheet (c - 32))))))
                    (seq 0 (Z.to_nat (sp_width (glyph sheet (c - 32)))))) eqn:E.
        - left. now apply covers_iff_lands.
        - right. intros Hcov. apply covers_iff_lands in Hcov. congruence. }
      destruct Hdec as [Hcov | Hncov]; [left; now apply Hin1 |].
      destruct Hcase as [Hold | (k & c' & Hk & Hcov)].
      * left. rewrite Hout1 by exact Hncov. exact Hold.
      * destruct k as [| k].
        -- cbn in Hk. injection Hk as <-. rewrite Z.mul_0_l, Z.add_0_r in Hcov. contradiction.
        -- right. exists k, c'. split; [exact Hk |].
           replace (x + (sp_width sheet + 1) + Z.of_nat k * (sp_width sheet + 1)) with (x + Z.of_nat (S k) * (sp_width sheet + 1)) by lia.
           exact Hcov.
    + intros Hnone. rewrite Hout2.
      * apply Hout1. specialize (Hnone 0%nat c eq_refl).
        now rewrite Z.mul_0_l, Z.add_0_r in Hnone.
      * intros k c' Hk. specialize (Hnone (S k) c' Hk).
        replace (x + (sp_width sheet + 1) + Z.of_nat k * (sp_width sheet + 1)) with (x + Z.of_nat (S k) * (sp_width sheet + 1)) by lia.
        exact Hnone.
Qed.
End TextLayout.

(** X8. A text of characters the sheet has glyphs for is set in a fixed pitch:
    its [k]-th character is blitted with the glyph [character - 32] of the
    sheet at [x + k * (width + 1)]. The pixels those glyphs cover take
    [color], every other pixel keeps its value, and the size of the buffer
    does not change. *)
Theorem DrawBufferText_layout (buffer : Buffer) (sheet : Sprite) (text : list Z)
    (x y color px py : Z) :
  buffer_wf buffer -> 0 <= px < buf_width buffer -> 0 <= py < buf_height buffer ->
  0 <= sp_width sheet ->
  Forall (fun c => printable c = true) text ->
  0 <= x -> x + Z.of_nat (length text) * (sp_width sheet + 1) < 2 ^ 32 ->
  buf_width (DrawBufferText buffer sheet text x y color) = buf_width buffer /\
  buf_height (DrawBufferText buffer sheet text x y color) = buf_height buffer /\
  buffer_wf (DrawBufferText buffer sheet text x y color) /\
  ((exists k c, text !! k = Some c /\
      covers (glyph sheet (c - 32)) (x + Z.of_nat k * (sp_width sheet + 1)) y px py) ->
   pixel (DrawBufferText buffer sheet text x y color) px py = color) /\
  ((forall k c, text !! k = Some c ->
      ~ covers (glyph sheet (c - 32)) (x + Z.of_nat k * (sp_width sheet + 1)) y px py) ->
   pixel (DrawBufferText buffer sheet text x y color) px py = pixel buffer px py).
Proof.
  intros Hwf Hpx Hpy Hw Hp Hx Hfit. unfold DrawBufferText.
  destruct (draw_text_layout sheet y color px py Hw text buffer x Hwf Hpx Hpy Hp Hx Hfit)
    as (Hwf' & Ew & Eh & Hin & Hout).
  split; [exact Ew |]. split; [exact Eh |]. split; [exact Hwf' |]. split.
  - intros Hex. apply Hin. now right.
  - exact Hout.
Qed.

Lemma DrawBufferText_layout_witness :
  pixel (DrawBufferText small_buffer dash_sprite [32] 0 0 7) 1 0 = 7 /\
  pixel (DrawBufferText small_buffer dash_sprite [32] 0 0 7) 2 0 = 0.
Proof.
  pose proof (DrawBufferText_layout small_buffer dash_sprite [32] 0 0 7 1 0)
    as (_ & _ & _ & Hin & _).
  { unfold buffer_wf; simpl; lia. } { simpl; lia. } { simpl; lia. } { simpl; lia. }
  { repeat constructor. } { lia. } { simpl; lia. }
  pose proof (DrawBufferText_layout small_buffer dash_sprite [32] 0 0 7 2 0)
    as (_ & _ & _ & _ & Hout).
  { unfold buffer_wf; simpl; lia. } { simpl; lia. } { simpl; lia. } { simpl; lia. }
  { repeat constructor. } { lia. } { simpl; lia. }
  split.
  - apply Hin. exists 0%nat, 32. split; [reflexivity |].
    exists 1, 0. repeat split; (simpl; lia) || reflexivity.
  - rewrite Hout; [reflexivity |].
    intros k c Hk. destruct k as [| k]; [| discriminate Hk]. injection Hk as <-.
    intros (i & j & Hi & _ & _ & Ex & _). cbn in Hi.
    assert (i = 0 \/ i = 1) as [-> | ->] by lia; discriminate Ex.
Defined.

(** ** Reachable states *)

Lemma reachable_Inv (s : State) : reachable s -> Inv s.
Proof. intros (inputs & Hrun). exact (run_Inv inputs init_state s init_state_Inv Hrun). Qed.

Lemma rocket_loop_more_fuel (extra fuel i : nat) (s : State) :
  Inv s -> (128 <= fuel + i)%nat ->
  rocket_loop (fuel + extra) i s = rocket_loop fuel i s.
Proof.
  intros Hinv Hf. induction extra as [| extra IH]; [now rewrite Nat.add_0_r |].
  rewrite Nat.add_succ_r, rocket_loop_fuel by (try exact Hinv; lia). exact IH.
Qed.

(** X9. In every state a session can reach the pool holds at most its 128
    rockets, in an array of 128 slots, so the slot the two firing steps write
    to, guarded by [num_rockets < 128], lies inside the array; and the rocket
    loop of the next tick ends by its own test: more passes than the pool has
    slots make no difference to its result. *)
Theorem reachable_pool_bound (s : State) (extra : nat) :
  reachable s ->
  0 <= num_rockets (game s) <= GAME_MAX_ROCKETS /\
  length (rockets (game s)) = Z.to_nat GAME_MAX_ROCKETS /\
  (num_rockets (game s) < GAME_MAX_ROCKETS ->
   (Z.to_nat (num_rockets (game s)) < length (rockets (game s)))%nat) /\
  rocket_loop (Z.to_nat GAME_MAX_ROCKETS + extra) 0 s = resolve_rockets s.
Proof.
  intros Hr. pose proof (reachable_Inv s Hr) as Hinv.
  pose proof (inv_num s Hinv) as Hn. pose proof (inv_rockets_len s Hinv) as Hl.
  unfold GAME_MAX_ROCKETS. change (Z.to_nat 128) with 128%nat.
  split; [exact Hn |]. split; [exact Hl |]. split; [intros Hfree; lia |].
  unfold resolve_rockets. change (Z.to_nat GAME_MAX_ROCKETS) with 128%nat.
  apply rocket_loop_more_fuel; [exact Hinv | lia].
Qed.

Lemma first_tick_reachable : reachable first_tick.
Proof. exists [idle_input]. vm_compute. reflexivity. Qed.

Lemma reachable_pool_bound_witness :
  0 <= num_rockets (game first_tick) <= GAME_MAX_ROCKETS /\
  rocket_loop (Z.to_nat GAME_MAX_ROCKETS + 5) 0 first_tick = resolve_rockets first_tick.
Proof.
  pose proof (reachable_pool_bound first_tick 5 first_tick_reachable) as (Hn & _ & _ & Hl).
  split; [exact Hn | exact Hl].
Defined.

(** X10. In every reachable state each slot of the horde holds either the
    alien the set-up placed there, at its place and of its type, its death
    counter still 10, or that alien dead, in the same row and at most 2 to the
    left of its place, its counter between 0 and 10: a live alien never moves,
    and no alien changes its type other than to dead. *)
Theorem reachable_horde (s : State) (k : nat) :
  reachable s -> (k < 50)%nat ->
  length (alien_array (game s)) = 50%nat /\
  length (death_counter s) = 50%nat /\
  (alien_type (alien_array (game s) !!! k) <> ALIEN_DEAD ->
   alien_array (game s) !!! k = formation_alien k /\ death_counter s !!! k = 10) /\
  (alien_type (alien_array (game s) !!! k) = ALIEN_DEAD ->
   alien_y (alien_array (game s) !!! k) = formation_y k /\
   formation_x k - 2 <= alien_x (alien_array (game s) !!! k) <= formation_x k /\
   0 <= death_counter s !!! k <= 10).
Proof.
  intros Hr Hk. pose proof (reachable_Inv s Hr) as Hinv.
  split; [apply (inv_aliens_len s Hinv) |]. split; [apply (inv_counter_len s Hinv) |].
  split; [now apply alive_alien |].
  intros Hdead. destruct (inv_aliens s Hinv k Hk) as (Ey & [(Et & _) | (_ & Ex & Ed)]).
  - rewrite Hdead in Et. destruct (formation_type_cases k) as [E | E];
      rewrite E in Et; discriminate Et.
  - auto.
Qed.

Lemma reachable_horde_witness :
  alien_array (game first_tick) !!! 17%nat = formation_alien 17 /\
  death_counter first_tick !!! 17%nat = 10.
Proof.
  pose proof (reachable_horde first_tick 17 first_tick_reachable ltac:(lia))
    as (_ & _ & Halive & _).
  apply Halive. vm_compute. discriminate.
Defined.

Lemma dead_count_full (l : list Alien) :
  dead_count l = Z.of_nat (length l) <-> all_dead l.
Proof.
  unfold all_dead. induction l as [| a l IH]; cbn [dead_count foldr length].
  - split; [intros _ k Hk; lia | reflexivity].
  - fold (dead_count l). pose proof (dead_count_bound l) as Hb.
    destruct (Z.eqb_spec (alien_type a) ALIEN_DEAD) as [Ea | Na]; split.
    + intros E k Hk. destruct k as [| k]; [exact Ea |].
      cbn. apply IH; lia.
    + intros H. assert (dead_count l = Z.of_nat (length l)); [| lia].
      apply IH. intros k Hk. apply (H (S k)). lia.
    + intros E. lia.
    + intros H. destruct Na. apply (H 0%nat). lia.
Qed.

Lemma dead_count_alive (l : list Alien) :
  dead_count l <> Z.of_nat (length l) ->
  exists k, (k < length l)%nat /\ alien_type (l !!! k) <> ALIEN_DEAD.
Proof.
  induction l as [| a l IH]; cbn [dead_count foldr length]; [intros H; now destruct H |].
  fold (dead_count l).
  destruct (Z.eqb_spec (alien_type a) ALIEN_DEAD) as [Ea | Na]; intros H.
  - destruct IH as (k & Hk & Halive); [lia |]. exists (S k). split; [lia | exact Halive].
  - exists 0%nat. split; [lia | exact Na].
Qed.

Lemma tick_not_won (inp : Input) (s s' : State) :
  tick inp s = Running s' -> aliens_killed s' <> 50.
Proof.
  unfold tick. destruct (resolve_rockets _) as [s1 | |]; try discriminate.
  destruct (Z.eqb_spec (aliens_killed s1) 50); [discriminate |].
  now intros [= <-].
Qed.

Lemma run_not_won (inputs : list Input) (s s' : State) :
  aliens_killed s <> 50 -> run inputs s = Running s' -> aliens_killed s' <> 50.
Proof.
  revert s. induction inputs as [| inp inputs IH]; intros s Hs; cbn [run].
  - now intros [= <-].
  - destruct (tick inp s) as [s1 | |] eqn:Ht; try discriminate.
    apply IH. now apply (tick_not_won inp s).
Qed.

(** X11. In every reachable state the kill counter is the number of dead
    aliens and is below 50, so some alien is still alive; the score is at most
    30 for each kill; and the player stands inside the field, on the row
    [y = 25], with 1 to 3 lives. *)
Theorem reachable_accounts (s : State) :
  reachable s ->
  aliens_killed s = dead_count (alien_array (game s)) /\
  0 <= aliens_killed s < 50 /\
  (exists k, (k < 50)%nat /\ alien_type (alien_array (game s) !!! k) <> ALIEN_DEAD) /\
  0 <= score s <= 30 * aliens_killed s /\
  0 <= player_x (player (game s)) <= width (game s) - sp_width playerSprite /\
  player_y (player (game s)) = 25 /\
  1 <= lives (player (game s)) <= 3.
Proof.
  intros Hr. pose proof (reachable_Inv s Hr) as Hinv. destruct Hr as (inputs & Hrun).
  pose proof (run_not_won inputs init_state s ltac:(discriminate) Hrun) as Hnot.
  pose proof (inv_killed s Hinv) as Hk. pose proof (inv_aliens_len s Hinv) as Hl.
  pose proof (dead_count_bound (alien_array (game s))) as Hb. rewrite Hl in Hb.
  pose proof (inv_player s Hinv) as (Hx & Hy & Hlives).
  split; [exact Hk |]. split; [lia |]. split; [| split; [apply (inv_score s Hinv) |]].
  - destruct (dead_count_alive (alien_array (game s))) as (k & Hk' & Halive);
      [rewrite Hl; lia |].
    exists k. rewrite Hl in Hk'. auto.
  - rewrite (inv_width s Hinv). cbn [sp_width playerSprite]. repeat split; lia.
Qed.

Lemma reachable_accounts_witness :
  aliens_killed first_tick = dead_count (alien_array (game first_tick)) /\
  1 <= lives (player (game first_tick)) <= 3.
Proof.
  pose proof (reachable_accounts first_tick first_tick_reachable)
    as (Hk & _ & _ & _ & _ & _ & Hl).
  split; [exact Hk | exact Hl].
Defined.

(** ** Steps of the rocket loop *)

Section RocketStep.
Variables (i : nat) (s : State).
Hypothesis Hinv : Inv s.
Hypothesis Hlive : Z.of_nat i < num_rockets (game s).

Let r : Rocket := rockets (game s) !!! i.
Let moved : Rocket := mkRocket (rocket_x r) (u32 (rocket_y r + dir r)) (dir r).
Let flown : State := set_game (set_rockets (<[i := moved]> (rockets (game s))) (game s)) s.

Lemma rocket_step_out :
  height (game s) <= rocket_y moved \/ rocket_y moved < sp_height rocket_sprite ->
  rocket_step i s = Running (set_game (remove_rocket i (game flown)) s).
Proof.
  intros Hout. unfold rocket_step. cbv zeta. fold r. fold moved.
  cbn [height set_rockets].
  assert ((rocket_y moved >=? height (game s)) || (rocket_y moved <? sp_height rocket_sprite)
          = true) as ->; [| reflexivity].
  apply orb_true_iff. rewrite Z.geb_le, Z.ltb_lt. exact Hout.
Qed.

Lemma rocket_step_in :
  sp_height rocket_sprite <= rocket_y moved < height (game s) ->
  rocket_step i s = check_player i (scan_aliens i flown).
Proof.
  intros Hin. unfold rocket_step. cbv zeta. fold r. fold moved.
  cbn [height set_rockets].
  assert ((rocket_y moved >=? height (game s)) || (rocket_y moved <? sp_height rocket_sprite)
          = false) as ->; [| reflexivity].
  apply orb_false_iff. rewrite Z.geb_leb, Z.leb_gt, Z.ltb_ge. lia.
Qed.

Lemma flown_rocket : rockets (game flown) !!! i = moved.
Proof.
  unfold flown. cbn [game set_game rockets set_rockets].
  apply list_lookup_total_insert_eq. pose proof (inv_rockets_len s Hinv).
  pose proof (inv_num s Hinv). lia.
Qed.

Lemma scan_aliens_miss :
  (forall k, (k < 50)%nat -> overlaps_alien s moved k = false) ->
  scan_aliens i flown = flown.
Proof.
  intros Hmiss. unfold scan_aliens.
  apply scan_miss. intros k Hk. apply elem_of_seq in Hk.
  change (alien_hoard_size (game flown)) with (alien_hoard_size (game s)) in Hk.
  rewrite (inv_hoard s Hinv) in Hk.
  rewrite rocket_hits_overlaps, flown_rocket. apply (Hmiss k). lia.
Qed.
End RocketStep.

(** X12. A rocket whose move takes it to [y >= height] or to [y] below the
    height of its sprite is taken out of the pool: [num_rockets] drops by 1,
    the last rocket of the pool takes its slot as it is, without being moved
    in this pass, and nothing else in the state changes. *)
Theorem rocket_leaves_field (i : nat) (s : State) :
  Inv s -> Z.of_nat i < num_rockets (game s) ->
  height (game s) <= u32 (rocket_y (rockets (game s) !!! i) + dir (rockets (game s) !!! i)) \/
  u32 (rocket_y (rockets (game s) !!! i) + dir (rockets (game s) !!! i))
    < sp_height rocket_sprite ->
  exists s',
    rocket_step i s = Running s' /\
    num_rockets (game s') = num_rockets (game s) - 1 /\
    (Z.of_nat i < num_rockets (game s) - 1 ->
     rockets (game s') !!! i = rockets (game s) !!! Z.to_nat (num_rockets (game s) - 1)) /\
    (forall k, k <> i -> rockets (game s') !!! k = rockets (game s) !!! k) /\
    alien_array (game s') = alien_array (game s) /\
    player (game s') = player (game s) /\
    death_counter s' = death_counter s /\
    score s' = score s /\ aliens_killed s' = aliens_killed s.
Proof.
  intros Hinv Hi Hout. eexists. split; [apply (rocket_step_out i s Hout) |].
  pose proof (inv_num s Hinv) as Hn. pose proof (inv_rockets_len s Hinv) as Hl.
  unfold remove_rocket. cbn [game set_game num_rockets rockets set_rockets set_num_rockets
    alien_array player death_counter score aliens_killed].
  rewrite u32_small by lia.
  split; [reflexivity |]. split; [| split; [| repeat split]].
  - intros Hlt. rewrite list_lookup_total_insert_eq by (rewrite length_insert; lia).
    rewrite arr_get_Z by (rewrite length_insert; lia).
    apply list_lookup_total_insert_ne. lia.
  - intros k Hk. rewrite !list_lookup_total_insert_ne by auto. reflexivity.
Qed.

Lemma leaving_state_Inv : Inv leaving_state.
Proof.
  apply Inv_with_game; try exact init_state_Inv; try reflexivity.
  - cbn. lia.
  - unfold is_u32. cbn. lia.
  - unfold leaving_game. cbn [rockets set_num_rockets set_rockets].
    apply rockets_insert_ok; [apply rockets_insert_ok |];
      [apply (inv_rockets _ init_state_Inv) | |]; split; unfold is_u32; cbn; lia.
  - cbn. lia.
Qed.

Lemma rocket_leaves_field_witness :
  exists s', rocket_step 0 leaving_state = Running s' /\
             num_rockets (game s') = 1 /\
             rockets (game s') !!! 0%nat = mkRocket 155 100 3.
Proof.
  destruct (rocket_leaves_field 0 leaving_state leaving_state_Inv) as (s' & Hs & Hn & Hl & _).
  - cbn. lia.
  - left. vm_compute. discriminate.
  - exists s'. split; [exact Hs |]. split; [exact Hn |]. apply Hl. cbn. lia.
Defined.

(** X13. A rocket whose move keeps it in the field and that overlaps no live
    alien and not the player only moves: its [y] changes by [dir], and the
    rest of the state is as before. *)
Theorem rocket_free_flight (i : nat) (s : State) :
  Inv s -> Z.of_nat i < num_rockets (game s) ->
  sp_height rocket_sprite
    <= u32 (rocket_y (rockets (game s) !!! i) + dir (rockets (game s) !!! i))
    < height (game s) ->
  (forall k, (k < 50)%nat ->
     overlaps_alien s
       (mkRocket (rocket_x (rockets (game s) !!! i))
          (u32 (rocket_y (rockets (game s) !!! i) + dir (rockets (game s) !!! i)))
          (dir (rockets (game s) !!! i))) k = false) ->
  sprite_overlap_check rocket_sprite (rocket_x (rockets (game s) !!! i))
    (u32 (rocket_y (rockets (game s) !!! i) + dir (rockets (game s) !!! i)))
    playerSprite (player_x (player (game s))) (player_y (player (game s))) = false ->
  rocket_step i s =
  Running
    (set_game
       (set_rockets
          (<[i := mkRocket (rocket_x (rockets (game s) !!! i))
                   (u32 (rocket_y (rockets (game s) !!! i) + dir (rockets (game s) !!! i)))
                   (dir (rockets (game s) !!! i))]> (rockets (game s)))
          (game s)) s).
Proof.
  intros Hinv Hi Hin Hmiss Hplayer.
  rewrite (rocket_step_in i s Hin), (scan_aliens_miss i s Hinv Hi Hmiss).
  unfold check_player. cbv zeta. rewrite (flown_rocket i s Hinv Hi).
  cbn [rocket_x rocket_y game set_game player set_rockets]. rewrite Hplayer. reflexivity.
Qed.

(** X14. A rocket that stays in the field, overlaps no live alien and does
    overlap the player costs the player a life: with one life left the session
    is lost; otherwise the player is put back at (150, 25) with one life less,
    and the rocket, moved, stays in the pool, [num_rockets] unchanged. *)
Theorem rocket_hits_player (i : nat) (s : State) :
  Inv s -> Z.of_nat i < num_rockets (game s) ->
  sp_height rocket_sprite
    <= u32 (rocket_y (rockets (game s) !!! i) + dir (rockets (game s) !!! i))
    < height (game s) ->
  (forall k, (k < 50)%nat ->
     overlaps_alien s
       (mkRocket (rocket_x (rockets (game s) !!! i))
          (u32 (rocket_y (rockets (game s) !!! i) + dir (rockets (game s) !!! i)))
          (dir (rockets (game s) !!! i))) k = false) ->
  sprite_overlap_check rocket_sprite (rocket_x (rockets (game s) !!! i))
    (u32 (rocket_y (rockets (game s) !!! i) + dir (rockets (game s) !!! i)))
    playerSprite (player_x (player (game s))) (player_y (player (game s))) = true ->
  (lives (player (game s)) = 1 -> rocket_step i s = Lost) /\
  (1 < lives (player (game s)) ->
   exists s',
     rocket_step i s = Running s' /\
     player (game s') = mkPlayer 150 25 (lives (player (game s)) - 1) /\
     num_rockets (game s') = num_rockets (game s) /\
     rockets (game s') !!! i =
       mkRocket (rocket_x (rockets (game s) !!! i))
         (u32 (rocket_y (rockets (game s) !!! i) + dir (rockets (game s) !!! i)))
         (dir (rockets (game s) !!! i)) /\
     alien_array (game s') = alien_array (game s) /\
     score s' = score s).
Proof.
  intros Hinv Hi Hin Hmiss Hplayer.
  rewrite (rocket_step_in i s Hin), (scan_aliens_miss i s Hinv Hi Hmiss).
  unfold check_player. cbv zeta. rewrite (flown_rocket i s Hinv Hi).
  cbn [rocket_x rocket_y game set_game player set_rockets]. rewrite Hplayer.
  pose proof (inv_player s Hinv) as (_ & _ & Hl).
  rewrite u32_small by lia. split.
  - intros ->. reflexivity.
  - intros Hmore. destruct (Z.eqb_spec (lives (player (game s)) - 1) 0); [lia |].
    eexists. split; [reflexivity |].
    cbn [game set_game player set_player num_rockets rockets alien_array score set_rockets].
    split; [reflexivity |]. split; [reflexivity |].
    split; [| split; reflexivity].
    apply list_lookup_total_insert_eq. pose proof (inv_rockets_len s Hinv).
    pose proof (inv_num s Hinv). lia.
Qed.

Lemma one_rocket_Inv (r : Rocket) : rocket_ok r -> Inv (one_rocket_state r).
Proof.
  intros Hr. apply Inv_with_game; try exact init_state_Inv; try reflexivity.
  - cbn. lia.
  - unfold is_u32. cbn. lia.
  - cbn [rockets set_num_rockets set_rockets].
    apply rockets_insert_ok; [apply (inv_rockets _ init_state_Inv) | exact Hr].
  - cbn. lia.
Qed.

Lemma no_overlap_check (s : State) (r : Rocket) :
  forallb (fun k => negb (overlaps_alien s r k)) (seq 0 50) = true ->
  forall k, (k < 50)%nat -> overlaps_alien s r k = false.
Proof.
  intros H k Hk. rewrite forallb_forall in H.
  apply negb_true_iff, H, in_seq. lia.
Qed.

Lemma rocket_free_flight_witness :
  rocket_step 0 cruising_state = Running (one_rocket_state (mkRocket 155 103 3)).
Proof.
  apply (rocket_free_flight 0 cruising_state).
  - apply one_rocket_Inv. split; unfold is_u32; cbn; lia.
  - cbn. lia.
  - vm_compute. split; [discriminate | reflexivity].
  - apply no_overlap_check. vm_compute. reflexivity.
  - vm_compute. reflexivity.
Defined.

Lemma rocket_hits_player_witness :
  exists s', rocket_step 0 threatened_state = Running s' /\
             player (game s') = mkPlayer 150 25 2 /\
             num_rockets (game s') = 1.
Proof.
  destruct (rocket_hits_player 0 threatened_state) as (_ & Hrun).
  - apply one_rocket_Inv. split; unfold is_u32; cbn; lia.
  - cbn. lia.
  - vm_compute. split; [discriminate | reflexivity].
  - apply no_overlap_check. vm_compute. reflexivity.
  - vm_compute. reflexivity.
  - destruct Hrun as (s' & Hs & Hp & Hn & _); [cbn; lia |].
    exists s'. split; [exact Hs |]. split; [exact Hp | exact Hn].
Defined.

(** ** Firing *)

(** X15. A fire request of the player is served only while the pool has room:
    then the new rocket goes to slot [num_rockets], half a sprite to the right
    of the player's [x] and one sprite above the player's [y], with direction
    3, and the other slots are untouched; with the pool full, or without a
    request, the game is left exactly as it was. *)
Theorem player_fire_capacity (fired : bool) (g : Game) :
  0 <= num_rockets g -> length (rockets g) = 128%nat ->
  0 <= player_x (player g) <= 290 -> 0 <= player_y (player g) < 2 ^ 31 ->
  (fired = true -> num_rockets g < GAME_MAX_ROCKETS ->
   num_rockets (player_fire fired g) = num_rockets g + 1 /\
   rockets (player_fire fired g) !!! Z.to_nat (num_rockets g)
     = mkRocket (player_x (player g) + 5) (player_y (player g) + 10) 3 /\
   (forall k, k <> Z.to_nat (num_rockets g) ->
      rockets (player_fire fired g) !!! k = rockets g !!! k) /\
   player (player_fire fired g) = player g /\
   alien_array (player_fire fired g) = alien_array g) /\
  (fired = false \/ GAME_MAX_ROCKETS <= num_rockets g -> player_fire fired g = g).
Proof.
  intros Hn Hl Hx Hy. unfold player_fire, GAME_MAX_ROCKETS. split.
  - intros -> Hfree. cbn [andb].
    destruct (Z.ltb_spec (num_rockets g) 128) as [_ | ?]; [| lia].
    cbn [num_rockets rockets set_num_rockets set_rockets player alien_array].
    rewrite u32_small by lia. split; [reflexivity |]. split; [| split; [| split; reflexivity]].
    + rewrite list_lookup_total_insert_eq by lia. unfold player_rocket.
      cbn [sp_width sp_height playerSprite]. change (10 / 2) with 5.
      rewrite !u32_small by lia. reflexivity.
    + intros k Hk. apply list_lookup_total_insert_ne. auto.
  - intros [-> | Hfull]; [reflexivity |].
    destruct (Z.ltb_spec (num_rockets g) 128) as [? | _]; [lia |].
    now rewrite andb_false_r.
Qed.

Lemma player_fire_capacity_witness :
  rockets (player_fire true init_game) !!! 0%nat = mkRocket 155 35 3 /\
  player_fire true full_pool_game = full_pool_game.
Proof.
  pose proof (player_fire_capacity true init_game) as [Hroom _];
    [cbn; lia | reflexivity | cbn; lia | cbn; lia |].
  pose proof (player_fire_capacity true full_pool_game) as [_ Hfull];
    [vm_compute; discriminate | reflexivity
    | vm_compute; split; discriminate | vm_compute; split; [discriminate | reflexivity] |].
  split.
  - destruct Hroom as (_ & Hr & _); [reflexivity | vm_compute; reflexivity | exact Hr].
  - apply Hfull. right. vm_compute. discriminate.
Defined.

(** X16. The front-rank update and the alien fire together: on the tick on
    which the counter reaches 30, with room in the pool, the column
    [rand mod 10] fires from its lowest live alien, whose record gives the
    anchor of the rocket; a column whose five aliens are all dead fires
    nothing, and the counter is reset all the same. *)
Theorem column_fires_from_front (rv : Z) (g : Game) (c : nat) :
  (c < 10)%nat -> Z.rem rv 10 = Z.of_nat c ->
  length (first_line_array g) = 10%nat -> length (rockets g) = 128%nat ->
  u32 (frame_counter g + 1) = 30 -> 0 <= num_rockets g < GAME_MAX_ROCKETS ->
  (forall r, (r < 5)%nat ->
     (forall r', (r' < r)%nat ->
        alien_type (alien_array g !!! (c + 10 * r')%nat) = ALIEN_DEAD) ->
     alien_type (alien_array g !!! (c + 10 * r)%nat) <> ALIEN_DEAD ->
     num_rockets (alien_fire rv (update_first_line g)) = num_rockets g + 1 /\
     rockets (alien_fire rv (update_first_line g)) !!! Z.to_nat (num_rockets g)
       = alien_rocket (alien_array g !!! (c + 10 * r)%nat) /\
     frame_counter (alien_fire rv (update_first_line g)) = 0) /\
  ((forall r, (r < 5)%nat -> alien_type (alien_array g !!! (c + 10 * r)%nat) = ALIEN_DEAD) ->
   num_rockets (alien_fire rv (update_first_line g)) = num_rockets g /\
   rockets (alien_fire rv (update_first_line g)) = rockets g /\
   frame_counter (alien_fire rv (update_first_line g)) = 0).
Proof.
  intros Hc Hrv Hfl Hrl Hfc Hn. unfold GAME_MAX_ROCKETS in Hn.
  assert (Hrep : arr_get (first_line_array (update_first_line g)) (Z.rem rv 10)
                 = representative (alien_array g) c).
  { rewrite Hrv, arr_get_lookup, update_first_line_lookup by
      (try rewrite update_first_line_eq; cbn [first_line_array set_first_line_array];
       try (destruct (foldl_insert_lookup (representative (alien_array g)) (seq 0 10)
                        (first_line_array g) 0) as [-> _]; lia); lia).
    reflexivity. }
  assert (Hframe : frame_counter (update_first_line g) = frame_counter g /\
                   num_rockets (update_first_line g) = num_rockets g /\
                   rockets (update_first_line g) = rockets g)
    by (rewrite update_first_line_eq; repeat split).
  destruct Hframe as (Ec & En & Er).
  rewrite alien_fire_cases. cbv zeta. rewrite Hrep, Ec, En, Er, Hfc.
  cbn [Z.eqb Pos.eqb andb].
  destruct (Z.ltb_spec (num_rockets g) GAME_MAX_ROCKETS) as [_ | Hge];
    [| unfold GAME_MAX_ROCKETS in Hge; lia].
  split.
  - intros r Hr Hbefore Halive.
    rewrite (representative_first_alive (alien_array g) c r Hr Hbefore Halive).
    destruct (Z.eqb_spec (alien_type (alien_array g !!! (c + 10 * r)%nat)) ALIEN_DEAD);
      [contradiction |]. cbn [negb].
    cbn [num_rockets rockets frame_counter set_frame_counter set_num_rockets set_rockets].
    rewrite u32_small by lia. split; [reflexivity |]. split; [| reflexivity].
    apply list_lookup_total_insert_eq. lia.
  - intros Hdead. rewrite (representative_all_dead (alien_array g) c Hdead).
    pose proof (Hdead 4%nat ltac:(lia)) as H4.
    replace (c + 10 * 4)%nat with (c + 40)%nat in H4 by lia.
    rewrite H4. cbn [Z.eqb ALIEN_DEAD negb].
    repeat split; try reflexivity.
    + rewrite update_first_line_eq. reflexivity.
    + rewrite update_first_line_eq. reflexivity.
Qed.

Lemma column_fires_from_front_witness :
  num_rockets (alien_fire 13 (update_first_line primed_game)) = 1 /\
  rockets (alien_fire 13 (update_first_line primed_game)) !!! 0%nat
    = alien_rocket (alien_array primed_game !!! 33%nat).
Proof.
  destruct (column_fires_from_front 13 primed_game 3) as [Hfire _].
  - lia.
  - reflexivity.
  - reflexivity.
  - reflexivity.
  - reflexivity.
  - vm_compute. split; [discriminate | reflexivity].
  - destruct (Hfire 3%nat) as (Hn & Hr & _).
    + lia.
    + intros r' Hr'. destruct r' as [| [| [| r']]]; [reflexivity .. | lia].
    + vm_compute. discriminate.
    + split; [exact Hn | exact Hr].
Defined.

(** ** The rocket loop as a whole *)

Lemma check_player_not_won (i : nat) (s : State) : check_player i s <> Won.
Proof.
  unfold check_player. cbv zeta.
  destruct (sprite_overlap_check _ _ _ _ _ _); [| discriminate].
  destruct (_ =? 0); discriminate.
Qed.

Lemma rocket_step_not_won (i : nat) (s : State) : rocket_step i s <> Won.
Proof.
  unfold rocket_step. cbv zeta. destruct (_ || _); [discriminate |].
  apply check_player_not_won.
Qed.

Lemma rocket_loop_not_won (fuel i : nat) (s : State) : rocket_loop fuel i s <> Won.
Proof.
  revert i s. induction fuel as [| fuel IH]; intros i s; cbn [rocket_loop]; [discriminate |].
  destruct (_ <? _); [| discriminate].
  destruct (rocket_step i s) as [s1 | |] eqn:Hstep; [apply IH | discriminate |].
  now apply rocket_step_not_won in Hstep.
Qed.

Lemma all_dead_check (l : list Alien) :
  forallb (fun a => alien_type a =? ALIEN_DEAD) l = true -> all_dead l.
Proof.
  intros H k Hk. rewrite forallb_forall in H.
  apply Z.eqb_eq, H. apply list_elem_of_In, list_elem_of_lookup_total_2. exact Hk.
Qed.

(** X17. The session is won on exactly the ticks on which the rocket loop runs
    to its end without the player losing the last life and leaves no alien
    of the horde alive; on such a tick the input is not looked at. *)
Theorem tick_won_iff (inp : Input) (s : State) :
  Inv s ->
  (tick inp s = Won <->
   exists s', resolve_rockets (handle_alien_deaths (update_animation_timing s)) = Running s' /\
              all_dead (alien_array (game s'))).
Proof.
  intros Hinv. unfold tick.
  destruct (resolve_rockets _) as [s1 | |] eqn:Hloop.
  - assert (Hinv1 : Inv s1).
    { apply (rocket_loop_Inv _ _ _ _
               (handle_alien_deaths_Inv _ (update_animation_timing_Inv _ Hinv)) Hloop). }
    assert (Hiff : aliens_killed s1 = 50 <-> all_dead (alien_array (game s1))).
    { rewrite (inv_killed s1 Hinv1), <- dead_count_full, (inv_aliens_len s1 Hinv1). reflexivity. }
    destruct (Z.eqb_spec (aliens_killed s1) 50) as [E | N]; split.
    + intros _. exists s1. split; [reflexivity | now apply Hiff].
    + reflexivity.
    + discriminate.
    + intros (s' & [= <-] & Hdead). apply Hiff in Hdead. contradiction.
  - split; [discriminate | intros (s' & Hs & _); discriminate].
  - now apply rocket_loop_not_won in Hloop.
Qed.

Lemma cleared_state_Inv : Inv cleared_state.
Proof.
  assert (Hlook : forall k, (k < 50)%nat ->
            alien_array (game cleared_state) !!! k = set_type ALIEN_DEAD (formation_alien k)).
  { intros k Hk.
    change (alien_array (game cleared_state))
      with (set_type ALIEN_DEAD <$> init_alien_array 50).
    rewrite init_alien_array_closed.
    rewrite (list_lookup_total_fmap (set_type ALIEN_DEAD) (formation_alien <$> seq 0 50) k)
      by (rewrite length_fmap, length_seq; exact Hk).
    now rewrite formation_alien_lookup. }
  constructor; try reflexivity.
  - cbn. lia.
  - unfold is_u32. cbn. lia.
  - intros k Hk. rewrite (Hlook k Hk).
    change (death_counter cleared_state) with (init_death_counter 50).
    rewrite init_death_counter_closed, lookup_total_replicate_2 by exact Hk.
    split; [reflexivity |]. right. cbn. repeat split; lia.
  - intros i. apply (inv_rockets _ init_state_Inv).
  - exists 0, 0. repeat split; lia.
  - cbn. lia.
  - cbn. lia.
Qed.

Lemma tick_won_iff_witness : tick (mkInput 1 true 7) cleared_state = Won.
Proof.
  apply (tick_won_iff (mkInput 1 true 7) cleared_state cleared_state_Inv).
  eexists. split; [vm_compute; reflexivity |].
  apply all_dead_check. vm_compute. reflexivity.
Defined.

(** X18. When the last rocket but one of the pool leaves the field, the last
    rocket takes its slot and the loop ends at once, the index having reached
    the new [num_rockets]: the rocket that was moved into the slot is not
    advanced on this tick. *)
Theorem swapped_rocket_skipped (fuel i : nat) (s : State) :
  Inv s -> num_rockets (game s) = Z.of_nat i + 2 ->
  height (game s) <= u32 (rocket_y (rockets (game s) !!! i) + dir (rockets (game s) !!! i)) \/
  u32 (rocket_y (rockets (game s) !!! i) + dir (rockets (game s) !!! i))
    < sp_height rocket_sprite ->
  exists s',
    rocket_loop (S fuel) i s = Running s' /\
    num_rockets (game s') = Z.of_nat i + 1 /\
    rockets (game s') !!! i = rockets (game s) !!! S i.
Proof.
  intros Hinv Hn Hout.
  pose proof (inv_rockets_len s Hinv) as Hl. pose proof (inv_num s Hinv) as Hb.
  eexists. split.
  - cbn [rocket_loop].
    destruct (Z.ltb_spec (Z.of_nat i) (num_rockets (game s))) as [Hi | ?]; [| lia].
    rewrite (rocket_step_out i s Hout).
    assert (Hnum : num_rockets
              (game (set_game
                 (remove_rocket i
                    (game (set_game
                       (set_rockets
                          (<[i := mkRocket (rocket_x (rockets (game s) !!! i))
                                   (u32 (rocket_y (rockets (game s) !!! i)
                                         + dir (rockets (game s) !!! i)))
                                   (dir (rockets (game s) !!! i))]> (rockets (game s)))
                          (game s)) s))) s)) = Z.of_nat i + 1).
    { unfold remove_rocket. cbn [game set_game num_rockets set_num_rockets set_rockets].
      rewrite u32_small by lia. lia. }
    destruct fuel as [| fuel]; cbn [rocket_loop]; [reflexivity |].
    rewrite Hnum.
    destruct (Z.ltb_spec (Z.of_nat (S i)) (Z.of_nat i + 1)); [lia | reflexivity].
  - unfold remove_rocket.
    cbn [game set_game num_rockets rockets set_num_rockets set_rockets].
    rewrite u32_small by lia. split; [lia |].
    rewrite list_lookup_total_insert_eq by (rewrite length_insert; lia).
    rewrite arr_get_Z by (rewrite length_insert; lia).
    rewrite list_lookup_total_insert_ne by lia.
    f_equal. lia.
Qed.

Lemma swapped_rocket_skipped_witness :
  exists s', resolve_rockets leaving_state = Running s' /\
             num_rockets (game s') = 1 /\
             rockets (game s') !!! 0%nat = mkRocket 155 100 3.
Proof.
  destruct (swapped_rocket_skipped 127 0 leaving_state leaving_state_Inv) as (s' & Hs & Hn & Hr).
  - reflexivity.
  - left. vm_compute. discriminate.
  - exists s'. split; [exact Hs |]. split; [exact Hn | exact Hr].
Defined.

(** ** The drawing calls never resize the buffer *)




